(** * Drishti-Agent: the incident workflows of the Cloud Functions

    A shallow embedding of [cloud_functions/functions/autoDispatch.js] and
    [cloud_functions/functions/onNewIncident.js].  Both handlers are
    sequences of awaited calls on the document store, the messaging gateway
    and an HTTP endpoint, wrapped in one [try]/[catch].  The embedding keeps
    that shape: a state-and-exception monad over a [World] made of the two
    document collections and a trace of the effects that took place. *)

From Stdlib Require Import ZArith String Ascii List.
From stdpp Require Import gmap strings list fin_maps pretty.

Set Warnings "-register-all".

Local Open Scope string_scope.
Local Open Scope Z_scope.

(** ** JavaScript values *)

Module Js.

(** The values that travel through the handlers: what [JSON.parse] returns,
    what a document field holds, plus [undefined] and the
    [FieldValue.serverTimestamp()] sentinel.  Numbers are carried by their
    integer value: the handlers only test a number against zero.

    [JServerTimestamp] is what the handler hands to [update].  The store
    replaces it by the commit time of that write, a value the handlers
    never read back; a document keeps the sentinel here as a mark that the
    field holds some commit time.  Two fields that hold the sentinel were
    both written by the server: they need not hold the same time. *)
Inductive jsval : Type :=
| JUndefined
| JNull
| JBool (b : bool)
| JNum (n : Z)
| JStr (s : string)
| JArr (items : list jsval)
| JObj (props : list (string * jsval))
| JServerTimestamp.

(** A thrown [Error]: the handlers only read [error.message]. *)
Record JsError : Type := mkError { err_name : string; err_message : string }.

Inductive outcome (A : Type) : Type :=
| Ok (a : A)
| Throw (e : JsError).
Arguments Ok {A} a.
Arguments Throw {A} e.

Definition bind_outcome {A B} (o : outcome A) (k : A -> outcome B) : outcome B :=
  match o with
  | Ok a => k a
  | Throw e => Throw e
  end.

(** [!!v] is false exactly when [v] is falsy. *)
Definition truthy (v : jsval) : bool :=
  match v with
  | JUndefined | JNull => false
  | JBool b => b
  | JNum n => negb (n =? 0)
  | JStr s => negb (String.eqb s "")
  | JArr _ | JObj _ | JServerTimestamp => true
  end.

(** [v === 'lit'] for a string literal. *)
Definition is_str (v : jsval) (lit : string) : bool :=
  match v with
  | JStr s => String.eqb s lit
  | _ => false
  end.

Fixpoint assoc (k : string) (props : list (string * jsval)) : jsval :=
  match props with
  | [] => JUndefined
  | (k', v) :: rest => if String.eqb k' k then v else assoc k rest
  end.

Definition type_error_read (what k : string) : JsError :=
  mkError "TypeError"
          ("Cannot read properties of " ++ what ++ " (reading '" ++ k ++ "')").

(** [v.k] for an identifier [k]; reading a property of [undefined] or [null]
    throws a [TypeError]. *)
Definition get_prop (v : jsval) (k : string) : outcome jsval :=
  match v with
  | JUndefined => Throw (type_error_read "undefined" k)
  | JNull => Throw (type_error_read "null" k)
  | JObj props => Ok (assoc k props)
  | JArr items =>
      if String.eqb k "length" then Ok (JNum (Z.of_nat (List.length items)))
      else Ok JUndefined
  | JStr s =>
      if String.eqb k "length" then Ok (JNum (Z.of_nat (String.length s)))
      else Ok JUndefined
  | JBool _ | JNum _ | JServerTimestamp => Ok JUndefined
  end.

(** [v[0]]. *)
Definition get_first (v : jsval) : outcome jsval :=
  match v with
  | JUndefined => Throw (type_error_read "undefined" "0")
  | JNull => Throw (type_error_read "null" "0")
  | JArr items => Ok (List.nth 0 items JUndefined)
  | JStr s =>
      match s with
      | EmptyString => Ok JUndefined
      | String c _ => Ok (JStr (String c EmptyString))
      end
  | JObj props => Ok (assoc "0" props)
  | JBool _ | JNum _ | JServerTimestamp => Ok JUndefined
  end.

(** [`${v}`]: the string a template literal interpolates. *)
Fixpoint to_string (v : jsval) : string :=
  match v with
  | JUndefined => "undefined"
  | JNull => "null"
  | JBool true => "true"
  | JBool false => "false"
  | JNum n => pretty n
  | JStr s => s
  | JArr items =>
      String.concat ","
        (List.map (fun x => match x with
                            | JUndefined | JNull => ""
                            | _ => to_string x
                            end) items)
  | JObj _ | JServerTimestamp => "[object Object]"
  end.

End Js.
Import Js.

(** ** The document store, the messaging gateway and the trace *)

(** A document is a map from field names to values; a missing field reads as
    [undefined]. *)
Abbreviation doc := (gmap string jsval).

Definition field (d : doc) (k : string) : jsval := default JUndefined (d !! k).

(** [update(fields)] merges: the written fields win, the others stay. *)
Definition merge_fields (fields : list (string * jsval)) (d : doc) : doc :=
  list_to_map fields ∪ d.

Record FcmMessage : Type := mkFcm {
  fcm_title : string;
  fcm_body : string;
  fcm_data : list (string * jsval);
  fcm_token : jsval
}.

(** The effects that took place, oldest first.  A call that throws leaves no
    event. *)
Inductive Event : Type :=
| EvIncidentWrite (id : string) (fields : list (string * jsval))
| EvResponderWrite (id : string) (fields : list (string * jsval))
| EvNotify (msg : FcmMessage)
| EvHttpPost (url : string).

(** The [incidents] collection is keyed by document id.  The [responders]
    collection is kept in the order in which the store enumerates it for a
    query, which is the only order the handler can observe. *)
Record World : Type := mkWorld {
  incidents : gmap string doc;
  responders : list (string * doc);
  trace : list Event
}.

(** ** Awaited computations: state and exceptions *)

Definition M (A : Type) : Type := World -> World * outcome A.

Definition ret {A} (a : A) : M A := fun w => (w, Ok a).

Definition bind {A B} (m : M A) (k : A -> M B) : M B :=
  fun w =>
    match m w with
    | (w', Ok a) => k a w'
    | (w', Throw e) => (w', Throw e)
    end.

Definition lift {A} (o : outcome A) : M A := fun w => (w, o).

(** [try { body } catch (error) { handler }] *)
Definition try_catch {A} (body : M A) (handler : JsError -> M A) : M A :=
  fun w =>
    match body w with
    | (w', Ok a) => (w', Ok a)
    | (w', Throw e) => handler e w'
    end.

Declare Scope js_scope.
Delimit Scope js_scope with js.
Notation "x <- m ;; k" := (bind m (fun x => k))
  (at level 100, m at next level, right associativity) : js_scope.
Notation "m ;;; k" := (bind m (fun _ => k))
  (at level 100, right associativity) : js_scope.
Local Open Scope js_scope.

(** *** Firestore *)

(** The double quote, as a one-character string. *)
Definition dquote : string := String "034"%char EmptyString.

(** The message of the [Error] that [doc] throws for a path that is not a
    non-empty string; the argument name is quoted in it. *)
Definition invalid_path_message : string :=
  "Value for argument " ++ dquote ++ "documentPath" ++ dquote ++
  " is not a valid resource path. Path must be a non-empty string.".

(** [collection(c).doc(id)]: the path must be a non-empty string.

    The reference is modelled for a document id, that is, a string that is
    one path segment.  A string with a [/] in it is a path to [doc]: it
    drops a leading and a trailing [/], refuses [//] and a path that does
    not end on a document.  That treatment is not modelled; the statements
    below that would depend on it are made for ids without [/] (see
    [contains_slash]). *)
Definition doc_ref (id : jsval) : outcome string :=
  match id with
  | JStr s =>
      if String.eqb s "" then Throw (mkError "Error" invalid_path_message)
      else Ok s
  | _ => Throw (mkError "Error" invalid_path_message)
  end.

Definition not_found (id : string) : JsError :=
  mkError "Error" ("5 NOT_FOUND: No document to update: " ++ id).

(** Every awaited call takes the fault the environment injects at that call
    site: [None] lets the call go through, [Some e] makes it throw [e]
    without any effect. *)
Definition incident_get (fault : option JsError) (id : string) : M (option doc) :=
  fun w =>
    match fault with
    | Some e => (w, Throw e)
    | None => (w, Ok (incidents w !! id))
    end.

(** [update] fails when the document does not exist.  A written
    [JServerTimestamp] stands for the commit time of this very write. *)
Definition incident_update (fault : option JsError) (id : string)
    (fields : list (string * jsval)) : M unit :=
  fun w =>
    match fault with
    | Some e => (w, Throw e)
    | None =>
        match incidents w !! id with
        | None => (w, Throw (not_found id))
        | Some d =>
            (mkWorld (<[id := merge_fields fields d]> (incidents w))
                     (responders w)
                     (trace w ++ [EvIncidentWrite id fields]),
             Ok tt)
        end
    end.

Definition is_available (r : string * doc) : bool :=
  is_str (field (snd r) "status") "available".

(** [where('status', '==', 'available').limit(n).get()] *)
Definition responders_query_available (fault : option JsError) (n : nat)
  : M (list (string * doc)) :=
  fun w =>
    match fault with
    | Some e => (w, Throw e)
    | None => (w, Ok (List.firstn n (List.filter is_available (responders w))))
    end.

(** [doc(id).update(fields)] on the collection: ids are document keys, and
    the update reaches the document stored under [id]. *)
Fixpoint update_by_id (id : string) (fields : list (string * jsval))
    (rs : list (string * doc)) : option (list (string * doc)) :=
  match rs with
  | [] => None
  | (i, d) :: rest =>
      if String.eqb i id then Some ((i, merge_fields fields d) :: rest)
      else option_map (cons (i, d)) (update_by_id id fields rest)
  end.

Definition responder_update (fault : option JsError) (id : string)
    (fields : list (string * jsval)) : M unit :=
  fun w =>
    match fault with
    | Some e => (w, Throw e)
    | None =>
        match update_by_id id fields (responders w) with
        | None => (w, Throw (not_found id))
        | Some rs' =>
            (mkWorld (incidents w) rs' (trace w ++ [EvResponderWrite id fields]),
             Ok tt)
        end
    end.

(** *** Cloud Messaging *)

(** Whether the gateway accepts a message is the environment's decision, as
    for every other call. *)

Definition messaging_send (fault : option JsError) (msg : FcmMessage) : M unit :=
  fun w =>
    match fault with
    | Some e => (w, Throw e)
    | None =>
        (mkWorld (incidents w) (responders w) (trace w ++ [EvNotify msg]), Ok tt)
    end.

(** ** autoDispatch.js *)

(** One optional fault per awaited call of the handler, in source order. *)
Record DispatchFaults : Type := mkDispatchFaults {
  get_incident_fault : option JsError;      (* incidentRef.get() *)
  query_responders_fault : option JsError;  (* responders ... .limit(1).get() *)
  update_pending_fault : option JsError;    (* update({status: 'pending_dispatch', ...}) *)
  send_fault : option JsError;              (* admin.messaging().send(message) *)
  update_dispatched_fault : option JsError; (* update({status: 'dispatched', ...}) *)
  update_responder_fault : option JsError;  (* responders doc update *)
  update_failed_fault : option JsError      (* update({status: 'dispatch_failed', ...}) *)
}.

Definition no_faults : DispatchFaults :=
  mkDispatchFaults None None None None None None None.

Definition simulatedRouteDuration : string := "5 minutes (simulated)".
Definition simulatedRouteDetails : string := "Simulated fastest route via Main Street.".

Definition pending_fields : list (string * jsval) :=
  [("status", JStr "pending_dispatch");
   ("dispatchAttemptedAt", JServerTimestamp);
   ("dispatchMessage", JStr "No available responders.")].

Definition dispatched_fields (responderId : string) : list (string * jsval) :=
  [("status", JStr "dispatched");
   ("dispatchedTo", JStr responderId);
   ("routeDuration", JStr simulatedRouteDuration);
   ("dispatchedAt", JServerTimestamp)].

Definition en_route_fields (incidentId : jsval) : list (string * jsval) :=
  [("status", JStr "en_route");
   ("currentIncidentId", incidentId)].

Definition failed_fields (error : JsError) : list (string * jsval) :=
  [("status", JStr "dispatch_failed");
   ("dispatchErrorMessage", JStr (err_message error));
   ("dispatchAttemptedAt", JServerTimestamp)].

(** The object literal handed to [send]; reading [location.latitude] throws
    when the incident has no [location]. *)
Definition dispatch_message (incidentId : jsval) (incidentData : doc)
    (responderId : string) (responderData : doc) : outcome FcmMessage :=
  bind_outcome (get_prop (field incidentData "location") "latitude") (fun lat =>
  bind_outcome (get_prop (field incidentData "location") "longitude") (fun lng =>
  Ok (mkFcm
        ("New Incident: " ++ to_string (field incidentData "anomalyType"))
        ("Proceed to location: " ++ to_string lat ++ ", " ++ to_string lng
           ++ ". Estimated travel: " ++ simulatedRouteDuration ++ ".")
        [("incidentId", incidentId);
         ("anomalyType", field incidentData "anomalyType");
         ("videoUrl", field incidentData "videoUrl");
         ("routeDetails", JStr simulatedRouteDetails);
         ("responderId", JStr responderId)]
        (field responderData "fcmToken")))).

Definition already_handled (incidentData : doc) : bool :=
  is_str (field incidentData "status") "dispatched"
  || is_str (field incidentData "status") "resolved".

(** The notification step: skipped, with a warning, for a responder without
    [fcmToken]. *)
Definition notify_responder (F : DispatchFaults) (incidentId : jsval)
    (incidentData : doc) (responderId : string) (responderData : doc) : M unit :=
  if truthy (field responderData "fcmToken") then
    message <- lift (dispatch_message incidentId incidentData
                                      responderId responderData) ;;
    messaging_send (send_fault F) message
  else ret tt.

(** The body of the [try] block. *)
Definition autoDispatch_body (F : DispatchFaults) (incidentId : jsval) : M unit :=
  incidentRef <- lift (doc_ref incidentId) ;;
  incidentDoc <- incident_get (get_incident_fault F) incidentRef ;;
  match incidentDoc with
  | None => ret tt
  | Some incidentData =>
      if already_handled incidentData then ret tt
      else
        respondersSnapshot <-
          responders_query_available (query_responders_fault F) 1 ;;
        match respondersSnapshot with
        | [] =>
            incident_update (update_pending_fault F) incidentRef pending_fields
        | (responderId, responderData) :: _ =>
            notify_responder F incidentId incidentData
                             responderId responderData ;;;
            incident_update (update_dispatched_fault F) incidentRef
                            (dispatched_fields responderId) ;;;
            responder_update (update_responder_fault F) responderId
                             (en_route_fields incidentId)
        end
  end.

(** The [catch] block. *)
Definition autoDispatch_handler (F : DispatchFaults) (incidentId : jsval)
    (error : JsError) : M unit :=
  ref <- lift (doc_ref incidentId) ;;
  incident_update (update_failed_fault F) ref (failed_fields error).

(** The handler registered on the [dispatch-triggers] topic, from the decoded
    payload on.  [Ok tt] is the resolved promise, [Throw e] a rejected one. *)
Definition autoDispatch (F : DispatchFaults) (payload : jsval) : M unit :=
  incidentId <- lift (get_prop payload "incidentId") ;;
  if negb (truthy incidentId) then ret tt
  else try_catch (autoDispatch_body F incidentId)
                 (autoDispatch_handler F incidentId).

(** ** onNewIncident.js *)

(** What the environment supplies to one analysis: the two clock readings,
    the faults of the awaited calls, the decoded body of the HTTP response,
    and the numeric coercion [v > 0] of a value that is neither a number, a
    boolean, [null] nor [undefined]. *)
Record AnalysisEnv : Type := mkAnalysisEnv {
  start_time : Z;
  end_time : Z;
  fetch_fault : option JsError;           (* fetch(apiUrl, ...) *)
  response_json : outcome jsval;          (* response.json() *)
  coerce_gt0 : jsval -> outcome bool;
  update_analyzed_fault : option JsError; (* update({status: 'analyzed', ...}) *)
  update_analysis_failed_fault : option JsError
                                          (* update({status: 'analysis_failed', ...}) *)
}.

Definition apiUrl : string :=
  "https://generativelanguage.googleapis.com/v1beta/models/gemini-2.0-flash:generateContent?key=".

Definition inconclusive : string :=
  "AI analysis inconclusive or response format error.".

Definition http_post (fault : option JsError) (url : string) : M unit :=
  fun w =>
    match fault with
    | Some e => (w, Throw e)
    | None =>
        (mkWorld (incidents w) (responders w) (trace w ++ [EvHttpPost url]), Ok tt)
    end.

(** [v > 0] *)
Definition js_gt0 (E : AnalysisEnv) (v : jsval) : outcome bool :=
  match v with
  | JUndefined | JNull => Ok false
  | JBool b => Ok b
  | JNum n => Ok (0 <? n)
  | _ => coerce_gt0 E v
  end.

Notation "x <~ o ;; k" := (bind_outcome o (fun x => k))
  (at level 100, o at next level, right associativity) : js_scope.

(** The chain of [&&] over [result.candidates[0].content.parts[0]], with its
    short-circuits, and the two assignments to [geminiSummary]. *)
Definition extract_summary (E : AnalysisEnv) (result : jsval) : outcome jsval :=
  candidates <~ get_prop result "candidates" ;;
  if negb (truthy candidates) then Ok (JStr inconclusive) else
  clen <~ get_prop candidates "length" ;;
  cpos <~ js_gt0 E clen ;;
  if negb cpos then Ok (JStr inconclusive) else
  first <~ get_first candidates ;;
  content <~ get_prop first "content" ;;
  if negb (truthy content) then Ok (JStr inconclusive) else
  parts <~ get_prop content "parts" ;;
  if negb (truthy parts) then Ok (JStr inconclusive) else
  plen <~ get_prop parts "length" ;;
  ppos <~ js_gt0 E plen ;;
  if negb ppos then Ok (JStr inconclusive) else
  part <~ get_first parts ;;
  get_prop part "text".

(** [geminiSummary.substring(0, 100)] in the log line: only a string has the
    method. *)
Definition require_substring (geminiSummary : jsval) : outcome string :=
  match geminiSummary with
  | JStr s => Ok s
  | JUndefined => Throw (type_error_read "undefined" "substring")
  | JNull => Throw (type_error_read "null" "substring")
  | _ => Throw (mkError "TypeError" "geminiSummary.substring is not a function")
  end.

Definition analyzed_fields (E : AnalysisEnv) (anomalyType : jsval)
    (geminiSummary : string) : list (string * jsval) :=
  [("status", JStr "analyzed");
   ("visionInsights",
    JArr [JStr ("Detailed analysis of " ++ to_string anomalyType ++ " confirmed.");
          JStr "Crowd movement patterns analyzed."]);
   ("geminiSummary", JStr geminiSummary);
   ("processingTimeMs", JNum (end_time E - start_time E));
   ("analyzedAt", JServerTimestamp)].

Definition analysis_failed_fields (error : JsError) : list (string * jsval) :=
  [("status", JStr "analysis_failed");
   ("errorMessage", JStr (err_message error));
   ("analyzedAt", JServerTimestamp)].

Definition onNewIncident_body (E : AnalysisEnv) (incidentId anomalyType : jsval)
  : M unit :=
  http_post (fetch_fault E) apiUrl ;;;
  result <- lift (response_json E) ;;
  geminiSummary <- lift (extract_summary E result) ;;
  summary <- lift (require_substring geminiSummary) ;;
  ref <- lift (doc_ref incidentId) ;;
  incident_update (update_analyzed_fault E) ref
                  (analyzed_fields E anomalyType summary).

Definition onNewIncident_handler (E : AnalysisEnv) (incidentId : jsval)
    (error : JsError) : M unit :=
  ref <- lift (doc_ref incidentId) ;;
  incident_update (update_analysis_failed_fault E) ref
                  (analysis_failed_fields error).

(** The handler registered on the [anomaly-triggers] topic.  The simulated
    vision step and the construction of the prompt cannot throw and leave no
    trace; the request is recorded by its URL. *)
Definition onNewIncident (E : AnalysisEnv) (payload : jsval) : M unit :=
  incidentId <- lift (get_prop payload "incidentId") ;;
  anomalyType <- lift (get_prop payload "anomalyType") ;;
  try_catch (onNewIncident_body E incidentId anomalyType)
            (onNewIncident_handler E incidentId).

(** ** The dashboard helpers *)

(** [back-fe/client/components/dashboard/AlertPanel.tsx] *)
Module AlertPanel.

(** [formatTimeAgo(timestamp)].  [now] is what [new Date().getTime()] reads
    and [timestamp] what [timestamp.getTime()] returns, both in whole
    milliseconds; [Math.floor] of a quotient of integers is [Z.div]. *)
Definition formatTimeAgo (now timestamp : Z) : string :=
  let diffMs := now - timestamp in
  let diffMins := diffMs / (1000 * 60) in
  if diffMins <? 1 then "Just now"
  else if diffMins <? 60 then pretty diffMins ++ "m ago"
  else
    let diffHours := diffMins / 60 in
    if diffHours <? 24 then pretty diffHours ++ "h ago"
    else
      let diffDays := diffHours / 24 in
      pretty diffDays ++ "d ago".

End AlertPanel.

(** The [VideoPlayer] component with the simulated playback. *)
Module VideoPlayer.

(** [s.padStart(2, '0')] *)
Definition padStart2 (s : string) : string :=
  match String.length s with
  | O => "00"
  | S O => "0" ++ s
  | _ => s
  end.

(** [formatTime(seconds)] for a whole number of seconds: [%] is the
    remainder that takes the sign of the dividend. *)
Definition formatTime (seconds : Z) : string :=
  let mins := seconds / 60 in
  let secs := Z.rem seconds 60 in
  pretty mins ++ ":" ++ padStart2 (pretty secs).

(** The updater handed to [setCurrentTime] once a second: the new position,
    and whether playback is stopped and the interval cleared. *)
Definition tick (duration prev : Z) : Z * bool :=
  if duration <=? prev then (prev, true) else (prev + 1, false).

(** The position after [n] runs of the updater. *)
Fixpoint ticks (n : nat) (duration t : Z) : Z :=
  match n with
  | O => t
  | S n' => ticks n' duration (fst (tick duration t))
  end.

End VideoPlayer.

(** The cache update of [useAcknowledgeAlert] in
    [back-fe/client/lib/data-store.ts]. *)
Module DataStore.

Section Acknowledge.

(** The representations of [number] and of [Date] play no part: the update
    only copies such fields. *)
Variables number date : Type.

Inductive Severity : Type := critical | high | medium | low.

Inductive AlertStatus : Type := active | resolved.

Record Location : Type := mkLocation {
  latitude : option number;
  longitude : option number;
  lat : option number;
  lng : option number;
  name : option string
}.

Record Alert : Type := mkAlert {
  id : string;
  incident_id : option string;
  alert_type : option string;
  title : option string;
  message : option string;
  severity : Severity;
  confidence : option number;
  description : option string;
  requires_response : option bool;
  timestamp : date + string;
  status : option AlertStatus;
  location : option Location;
  acknowledged : option bool
}.

Record DashboardData : Type := mkDashboardData {
  active_incidents : number;
  todays_incidents : number;
  available_units : number;
  total_units : number;
  recent_alerts : list Alert;
  system_status : string;
  last_updated : string
}.

(** [{ ...alert, acknowledged: true }] *)
Definition with_acknowledged (alert : Alert) : Alert :=
  mkAlert (id alert) (incident_id alert) (alert_type alert) (title alert)
          (message alert) (severity alert) (confidence alert)
          (description alert) (requires_response alert) (timestamp alert)
          (status alert) (location alert) (Some true).

(** The function handed to [setQueryData] by [onSuccess]; [None] is the
    empty cache. *)
Definition acknowledge (alertId : string) (old : option DashboardData)
  : option DashboardData :=
  match old with
  | None => None
  | Some o =>
      Some (mkDashboardData
              (active_incidents o) (todays_incidents o) (available_units o)
              (total_units o)
              (List.map (fun alert =>
                           if String.eqb (id alert) alertId
                           then with_acknowledged alert
                           else alert)
                        (recent_alerts o))
              (system_status o) (last_updated o))
  end.

End Acknowledge.

End DataStore.

(** * Vocabulary of the properties *)

Local Open Scope list_scope.

(** ** Reading the fields of an update *)

Fixpoint assoc_opt (k : string) (fields : list (string * jsval)) : option jsval :=
  match fields with
  | [] => None
  | (k', v) :: rest => if String.eqb k' k then Some v else assoc_opt k rest
  end.

(** ** Worlds after an effect *)

Definition add_events (w : World) (evs : list Event) : World :=
  mkWorld (incidents w) (responders w) (trace w ++ evs).

Definition write_incident (w : World) (id : string)
    (fields : list (string * jsval)) (d : doc) : World :=
  mkWorld (<[id := merge_fields fields d]> (incidents w)) (responders w)
          (trace w ++ [EvIncidentWrite id fields]).

Definition write_responder (w : World) (id : string)
    (fields : list (string * jsval)) (rs' : list (string * doc)) : World :=
  mkWorld (incidents w) rs' (trace w ++ [EvResponderWrite id fields]).

(** What the notification step adds to the trace, or the error it throws. *)
Definition notification_for (F : DispatchFaults) (incidentId : jsval)
    (d : doc) (rid : string) (rd : doc) : outcome (list Event) :=
  if truthy (field rd "fcmToken") then
    msg <~ dispatch_message incidentId d rid rd ;;
    match send_fault F with
    | Some e => Throw e
    | None => Ok [EvNotify msg]
    end
  else Ok [].

(** ** The paths of one invocation of [autoDispatch] *)

(** The incident was read, and is neither dispatched nor resolved. *)
Definition open_incident (F : DispatchFaults) (w : World) (id : string) (d : doc)
  : Prop :=
  get_incident_fault F = None
  /\ incidents w !! id = Some d
  /\ already_handled d = false.

(** The query went through and returned [(rid, rd)]. *)
Definition selected (F : DispatchFaults) (w : World) (rid : string) (rd : doc)
  : Prop :=
  query_responders_fault F = None
  /\ List.find is_available (responders w) = Some (rid, rd).

(** Every way the [try] block can end, with the world it leaves. *)
Inductive body_path (F : DispatchFaults) (id : string) (w : World)
  : World -> outcome unit -> Prop :=
| PathGetFault e :
    get_incident_fault F = Some e ->
    body_path F id w w (Throw e)
| PathNotFound :
    get_incident_fault F = None ->
    incidents w !! id = None ->
    body_path F id w w (Ok tt)
| PathHandled d :
    get_incident_fault F = None ->
    incidents w !! id = Some d ->
    already_handled d = true ->
    body_path F id w w (Ok tt)
| PathQueryFault d e :
    open_incident F w id d ->
    query_responders_fault F = Some e ->
    body_path F id w w (Throw e)
| PathNoCapacityFault d e :
    open_incident F w id d ->
    query_responders_fault F = None ->
    List.find is_available (responders w) = None ->
    update_pending_fault F = Some e ->
    body_path F id w w (Throw e)
| PathNoCapacity d :
    open_incident F w id d ->
    query_responders_fault F = None ->
    List.find is_available (responders w) = None ->
    update_pending_fault F = None ->
    body_path F id w (write_incident w id pending_fields d) (Ok tt)
| PathNotifyThrow d rid rd e :
    open_incident F w id d ->
    selected F w rid rd ->
    notification_for F (JStr id) d rid rd = Throw e ->
    body_path F id w w (Throw e)
| PathDispatchedFault d rid rd evs e :
    open_incident F w id d ->
    selected F w rid rd ->
    notification_for F (JStr id) d rid rd = Ok evs ->
    update_dispatched_fault F = Some e ->
    body_path F id w (add_events w evs) (Throw e)
| PathResponderFault d rid rd evs e :
    open_incident F w id d ->
    selected F w rid rd ->
    notification_for F (JStr id) d rid rd = Ok evs ->
    update_dispatched_fault F = None ->
    update_responder_fault F = Some e ->
    body_path F id w
      (write_incident (add_events w evs) id (dispatched_fields rid) d)
      (Throw e)
| PathSuccess d rid rd evs rs' :
    open_incident F w id d ->
    selected F w rid rd ->
    notification_for F (JStr id) d rid rd = Ok evs ->
    update_dispatched_fault F = None ->
    update_responder_fault F = None ->
    update_by_id rid (en_route_fields (JStr id)) (responders w) = Some rs' ->
    body_path F id w
      (write_responder
         (write_incident (add_events w evs) id (dispatched_fields rid) d)
         rid (en_route_fields (JStr id)) rs')
      (Ok tt).

(** [ends_in P (m w)]: the run [m w] ends in a world and an outcome related
    by [P]. *)
Definition ends_in {A} (P : World -> outcome A -> Prop) (p : World * outcome A)
  : Prop :=
  P (fst p) (snd p).

(** Every way an invocation can end. *)
Inductive run_path (F : DispatchFaults) (payload : jsval) (w : World)
  : World -> outcome unit -> Prop :=
| RunPayloadThrow e :
    get_prop payload "incidentId" = Throw e ->
    run_path F payload w w (Throw e)
| RunNoId v :
    get_prop payload "incidentId" = Ok v ->
    truthy v = false ->
    run_path F payload w w (Ok tt)
| RunBadId v e :
    get_prop payload "incidentId" = Ok v ->
    truthy v = true ->
    doc_ref v = Throw e ->
    run_path F payload w w (Throw e)
| RunBody id w' :
    get_prop payload "incidentId" = Ok (JStr id) ->
    id <> "" ->
    body_path F id w w' (Ok tt) ->
    run_path F payload w w' (Ok tt)
| RunHandlerFault id w1 e e' :
    get_prop payload "incidentId" = Ok (JStr id) ->
    id <> "" ->
    body_path F id w w1 (Throw e) ->
    update_failed_fault F = Some e' ->
    run_path F payload w w1 (Throw e')
| RunHandlerNotFound id w1 e :
    get_prop payload "incidentId" = Ok (JStr id) ->
    id <> "" ->
    body_path F id w w1 (Throw e) ->
    update_failed_fault F = None ->
    incidents w1 !! id = None ->
    run_path F payload w w1 (Throw (not_found id))
| RunRecorded id w1 e d1 :
    get_prop payload "incidentId" = Ok (JStr id) ->
    id <> "" ->
    body_path F id w w1 (Throw e) ->
    update_failed_fault F = None ->
    incidents w1 !! id = Some d1 ->
    run_path F payload w (write_incident w1 id (failed_fields e) d1) (Ok tt).

(** ** Observations on worlds and traces *)

Definition is_incident_write (e : Event) : bool :=
  match e with EvIncidentWrite _ _ => true | _ => false end.

Definition is_responder_write (e : Event) : bool :=
  match e with EvResponderWrite _ _ => true | _ => false end.

Definition is_notify (e : Event) : bool :=
  match e with EvNotify _ => true | _ => false end.

Definition count (p : Event -> bool) (t : list Event) : nat :=
  List.length (List.filter p t).

(** The incident record carries a [location] whose coordinates can be read. *)
Definition has_location (d : doc) : bool :=
  match field d "location" with
  | JUndefined | JNull => false
  | _ => true
  end.

(** The responder the message is addressed to, when the event names one. *)
Definition chosen_by (e : Event) : option string :=
  match e with
  | EvResponderWrite rid _ => Some rid
  | EvIncidentWrite _ fields =>
      match assoc_opt "dispatchedTo" fields with
      | Some (JStr rid) => Some rid
      | _ => None
      end
  | EvNotify msg =>
      match assoc_opt "responderId" (fcm_data msg) with
      | Some (JStr rid) => Some rid
      | _ => None
      end
  | EvHttpPost _ => None
  end.

(** Every injected fault carries a message. *)
Definition faults_have_messages (F : DispatchFaults) : Prop :=
  forall e,
    In (Some e) [get_incident_fault F; query_responders_fault F;
                 update_pending_fault F; send_fault F;
                 update_dispatched_fault F; update_responder_fault F;
                 update_failed_fault F] ->
    err_message e <> "".

(** The invocation gets past its three guards: the payload names an
    incident, the incident exists, and it is neither [dispatched] nor
    [resolved]. *)
Definition reaches_selection (payload : jsval) (w : World) : bool :=
  match get_prop payload "incidentId" with
  | Ok (JStr id) =>
      negb (String.eqb id "")
      && match incidents w !! id with
         | Some d => negb (already_handled d)
         | None => false
         end
  | _ => false
  end.

(** The string has a [/] in it: [doc] reads it as a path, not as the id of
    a document of the collection. *)
Fixpoint contains_slash (s : string) : bool :=
  match s with
  | EmptyString => false
  | String c rest => Ascii.eqb c "/"%char || contains_slash rest
  end.

(** The payload's [incidentId], when it is a string, is a document id: it
    has no [/]. *)
Definition payload_id_plain (payload : jsval) : bool :=
  match get_prop payload "incidentId" with
  | Ok (JStr id) => negb (contains_slash id)
  | _ => true
  end.

Definition no_current_incident (d : doc) : bool :=
  match field d "currentIncidentId" with
  | JUndefined | JNull => true
  | _ => false
  end.

(** A responder whose status is [available] has no [currentIncidentId]. *)
Definition responder_invariant (d : doc) : Prop :=
  is_str (field d "status") "available" = true -> no_current_incident d = true.

(** ** Concrete scenarios *)

Module Scenario.

Definition payload_I1 : jsval := JObj [("incidentId", JStr "I1")].

Definition incident_with_status (status : string) : doc :=
  list_to_map
    [("status", JStr status);
     ("anomalyType", JStr "crowd_surge");
     ("location", JObj [("latitude", JNum 12); ("longitude", JNum 77)]);
     ("videoUrl", JStr "gs://drishti/clip-1.mp4")].

Definition pending_I1 : doc := incident_with_status "pending".

Definition responder_with_token : doc :=
  list_to_map [("status", JStr "available"); ("fcmToken", JStr "token-R1")].

Definition responder_without_token : doc :=
  list_to_map [("status", JStr "available")].

Definition responder_busy : doc :=
  list_to_map [("status", JStr "busy"); ("currentIncidentId", JStr "I0");
               ("fcmToken", JStr "token-R0")].

Definition world_with (inc : doc) (rs : list (string * doc)) : World :=
  mkWorld {["I1" := inc]} rs [].

Definition unavailable : JsError := mkError "Error" "14 UNAVAILABLE: connection lost".

Definition status_of (w : World) (id : string) : jsval :=
  field (default ∅ (incidents w !! id)) "status".

End Scenario.

(** Two available responders, the second one at the incident's location. *)
Module Distance.

Definition far : doc :=
  list_to_map [("status", JStr "available");
               ("location", JObj [("latitude", JNum 89); ("longitude", JNum 179)])].

Definition near : doc :=
  list_to_map [("status", JStr "available");
               ("location", JObj [("latitude", JNum 12); ("longitude", JNum 77)])].

Definition world : World :=
  Scenario.world_with Scenario.pending_I1 [("R_far", far); ("R_near", near)].

(** The same two, stored after a responder that is busy. *)
Definition world_after_busy : World :=
  Scenario.world_with Scenario.pending_I1
    [("R0", Scenario.responder_busy); ("R_far", far); ("R_near", near)].

End Distance.

Module Analysis.

Definition payload_I1 : jsval :=
  JObj [("incidentId", JStr "I1");
        ("videoUrl", JStr "gs://drishti/clip-1.mp4");
        ("anomalyType", JStr "crowd_surge");
        ("deviceId", JStr "cam-001");
        ("location", JObj [("latitude", JNum 12); ("longitude", JNum 77)])].

Definition offline : JsError := mkError "TypeError" "fetch failed".

(** The runtime's coercion is never reached by the responses below. *)
Definition no_coercion (v : jsval) : outcome bool := Ok false.

Definition env (fetch : option JsError) (body : outcome jsval)
    (failed : option JsError) : AnalysisEnv :=
  mkAnalysisEnv 1000 3250 fetch body no_coercion None failed.

Definition world : World := Scenario.world_with Scenario.pending_I1 [].

Definition well_formed : jsval :=
  JObj [("candidates",
         JArr [JObj [("content",
                      JObj [("parts",
                             JArr [JObj [("text", JStr "Crowd is dense.")]])])]])].

Definition api_error : jsval :=
  JObj [("error", JObj [("code", JNum 400);
                        ("status", JStr "INVALID_ARGUMENT")])].

End Analysis.

(** ** Observations used by the further properties *)

Definition is_http_post (e : Event) : bool :=
  match e with EvHttpPost _ => true | _ => false end.

(** The incident fields that [autoDispatch] ever writes. *)
Definition dispatch_written_names : list string :=
  ["status"; "dispatchAttemptedAt"; "dispatchMessage"; "dispatchedTo";
   "routeDuration"; "dispatchedAt"; "dispatchErrorMessage"].



(** The two fields of an analysed incident that hold a time: the one the
    handler measures and the one the server fills in. *)
Definition analysis_time_names : list string :=
  ["processingTimeMs"; "analyzedAt"].

(** The same response and the same faults, with other clock readings. *)
Definition with_clock (E : AnalysisEnv) (start_time' end_time' : Z)
  : AnalysisEnv :=
  mkAnalysisEnv start_time' end_time' (fetch_fault E) (response_json E)
                (coerce_gt0 E) (update_analyzed_fault E)
                (update_analysis_failed_fault E).

(** ** The paths of one invocation of [onNewIncident] *)

(** The steps between the request and the update, which read nothing from
    the store: the document reference and the fields to write, or the error
    thrown on the way. *)
Definition analysis_plan (E : AnalysisEnv) (incidentId anomalyType : jsval)
  : outcome (string * list (string * jsval)) :=
  result <~ response_json E ;;
  geminiSummary <~ extract_summary E result ;;
  summary <~ require_substring geminiSummary ;;
  ref <~ doc_ref incidentId ;;
  Ok (ref, analyzed_fields E anomalyType summary).

(** The [try] block of the analysis throws [e] after adding [evs] to the
    trace. *)
Inductive analysis_throws (E : AnalysisEnv) (incidentId anomalyType : jsval)
    (w : World) : list Event -> JsError -> Prop :=
| ThrowsFetch e :
    fetch_fault E = Some e ->
    analysis_throws E incidentId anomalyType w [] e
| ThrowsPlan e :
    fetch_fault E = None ->
    analysis_plan E incidentId anomalyType = Throw e ->
    analysis_throws E incidentId anomalyType w [EvHttpPost apiUrl] e
| ThrowsUpdateFault ref fields e :
    fetch_fault E = None ->
    analysis_plan E incidentId anomalyType = Ok (ref, fields) ->
    update_analyzed_fault E = Some e ->
    analysis_throws E incidentId anomalyType w [EvHttpPost apiUrl] e
| ThrowsNotFound ref fields :
    fetch_fault E = None ->
    analysis_plan E incidentId anomalyType = Ok (ref, fields) ->
    update_analyzed_fault E = None ->
    incidents w !! ref = None ->
    analysis_throws E incidentId anomalyType w [EvHttpPost apiUrl]
                    (not_found ref).

(** Every way an invocation of [onNewIncident] can end. *)
Inductive analysis_path (E : AnalysisEnv) (payload : jsval) (w : World)
  : World -> outcome unit -> Prop :=
| AnalysisPayloadThrow e :
    get_prop payload "incidentId" = Throw e ->
    analysis_path E payload w w (Throw e)
| AnalysisAnalyzed id anomalyType fields d :
    get_prop payload "incidentId" = Ok (JStr id) ->
    get_prop payload "anomalyType" = Ok anomalyType ->
    id <> "" ->
    fetch_fault E = None ->
    analysis_plan E (JStr id) anomalyType = Ok (id, fields) ->
    update_analyzed_fault E = None ->
    incidents w !! id = Some d ->
    analysis_path E payload w
      (write_incident (add_events w [EvHttpPost apiUrl]) id fields d) (Ok tt)
| AnalysisFailureRecorded id anomalyType evs e d :
    get_prop payload "incidentId" = Ok (JStr id) ->
    get_prop payload "anomalyType" = Ok anomalyType ->
    id <> "" ->
    analysis_throws E (JStr id) anomalyType w evs e ->
    update_analysis_failed_fault E = None ->
    incidents w !! id = Some d ->
    analysis_path E payload w
      (write_incident (add_events w evs) id (analysis_failed_fields e) d)
      (Ok tt)
| AnalysisRejected incidentId anomalyType evs e e' :
    get_prop payload "incidentId" = Ok incidentId ->
    get_prop payload "anomalyType" = Ok anomalyType ->
    analysis_throws E incidentId anomalyType w evs e ->
    (exists e0, doc_ref incidentId = Throw e0)
    \/ (exists id, doc_ref incidentId = Ok id
                   /\ (update_analysis_failed_fault E = Some e'
                       \/ incidents w !! id = None)) ->
    analysis_path E payload w (add_events w evs) (Throw e').

(** * Properties *)

(** ** Documents and field updates *)

Lemma lookup_list_to_map_assoc (fields : list (string * jsval)) (k : string) :
  (list_to_map fields : doc) !! k = assoc_opt k fields.
Proof.
  induction fields as [|[k' v] rest IH]; simpl.
  - apply lookup_empty.
  - destruct (String.eqb_spec k' k) as [->|Hne].
    + apply lookup_insert_eq.
    + rewrite lookup_insert_ne by assumption. exact IH.
Qed.

Lemma field_merge (fields : list (string * jsval)) (d : doc) (k : string) :
  field (merge_fields fields d) k =
  match assoc_opt k fields with
  | Some v => v
  | None => field d k
  end.
Proof.
  unfold field, merge_fields.
  rewrite lookup_union, lookup_list_to_map_assoc.
  destruct (assoc_opt k fields), (d !! k); reflexivity.
Qed.

(** ** The query and the keyed update of the responder collection *)

Lemma query_limit_1 (rs : list (string * doc)) :
  List.firstn 1 (List.filter is_available rs) =
  match List.find is_available rs with
  | Some r => [r]
  | None => []
  end.
Proof.
  induction rs as [|r rest IH]; simpl; [reflexivity|].
  destruct (is_available r); simpl; [reflexivity | exact IH].
Qed.

Lemma find_none_iff (rs : list (string * doc)) :
  List.find is_available rs = None <->
  Forall (fun r => is_available r = false) rs.
Proof.
  induction rs as [|r rest IH]; simpl.
  - split; [constructor | reflexivity].
  - destruct (is_available r) eqn:Hr.
    + split; [discriminate | inversion 1; congruence].
    + rewrite IH. split; [constructor; assumption | inversion 1; assumption].
Qed.

(** [find] returns the first match: everything before it fails the test. *)
Lemma find_some_split (rs : list (string * doc)) (r : string * doc) :
  List.find is_available rs = Some r <->
  exists l1 l2, rs = l1 ++ r :: l2
                /\ Forall (fun x => is_available x = false) l1
                /\ is_available r = true.
Proof.
  induction rs as [|x rest IH]; simpl.
  - split; [discriminate|]. intros (l1 & l2 & H & _). destruct l1; discriminate.
  - destruct (is_available x) eqn:Hx.
    + split.
      * intros [= <-]. exists [], rest. repeat split; [constructor | assumption].
      * intros (l1 & l2 & H & Hl1 & Hr). destruct l1 as [|y l1]; simpl in H.
        -- congruence.
        -- injection H as <- _. inversion Hl1; congruence.
    + rewrite IH. split.
      * intros (l1 & l2 & -> & Hl1 & Hr). exists (x :: l1), l2.
        repeat split; [constructor; assumption | assumption].
      * intros (l1 & l2 & H & Hl1 & Hr). destruct l1 as [|y l1]; simpl in H.
        -- injection H as -> _. congruence.
        -- injection H as <- ->. exists l1, l2.
           repeat split; [inversion Hl1; assumption | assumption].
Qed.

Lemma exists_available_find (rs : list (string * doc)) :
  Exists (fun r => is_available r = true) rs ->
  exists r, List.find is_available rs = Some r.
Proof.
  induction 1 as [r rest Hr | r rest _ IH]; simpl.
  - rewrite Hr. eauto.
  - destruct (is_available r); eauto.
Qed.

Lemma update_by_id_split (id : string) (fields : list (string * jsval))
    (l1 l2 : list (string * doc)) (d : doc) :
  ~ In id (List.map fst l1) ->
  update_by_id id fields (l1 ++ (id, d) :: l2) =
  Some (l1 ++ (id, merge_fields fields d) :: l2).
Proof.
  induction l1 as [|[i x] l1 IH]; simpl; intros Hnotin.
  - rewrite String.eqb_refl. reflexivity.
  - destruct (String.eqb_spec i id) as [->|Hne]; [tauto|].
    rewrite IH by tauto. reflexivity.
Qed.

(** A keyed update succeeds as soon as the id is present, changes one
    document in place, and that document was stored under the id. *)
Lemma update_by_id_present (id : string) (fields : list (string * jsval))
    (rs : list (string * doc)) :
  In id (List.map fst rs) ->
  exists l1 d l2,
    rs = l1 ++ (id, d) :: l2
    /\ update_by_id id fields rs = Some (l1 ++ (id, merge_fields fields d) :: l2).
Proof.
  induction rs as [|[i x] rest IH]; simpl; [tauto|].
  intros Hin. destruct (String.eqb_spec i id) as [->|Hne].
  - exists [], x, rest. split; reflexivity.
  - destruct Hin as [Heq|Hin]; [congruence|].
    destruct (IH Hin) as (l1 & d & l2 & -> & Hupd).
    exists ((i, x) :: l1), d, l2. rewrite Hupd. split; reflexivity.
Qed.

Lemma find_some_in (rs : list (string * doc)) (r : string * doc) :
  List.find is_available rs = Some r -> In (fst r) (List.map fst rs).
Proof.
  intros H. apply find_some in H as [Hin _]. apply in_map. exact Hin.
Qed.

(** ** The paths of one invocation of [autoDispatch] *)

Lemma add_events_nil (w : World) : add_events w [] = w.
Proof. destruct w; unfold add_events; simpl. rewrite app_nil_r. reflexivity. Qed.

Lemma notify_responder_run F incidentId d rid rd w :
  notify_responder F incidentId d rid rd w =
  match notification_for F incidentId d rid rd with
  | Ok evs => (add_events w evs, Ok tt)
  | Throw e => (w, Throw e)
  end.
Proof.
  unfold notify_responder, notification_for.
  destruct (truthy (field rd "fcmToken")).
  - unfold bind, lift, messaging_send.
    destruct (dispatch_message incidentId d rid rd) as [msg|e]; simpl;
      [destruct (send_fault F)|]; reflexivity.
  - unfold ret. rewrite add_events_nil. reflexivity.
Qed.

Lemma doc_ref_string (id : string) : id <> "" -> doc_ref (JStr id) = Ok id.
Proof.
  intros Hne. unfold doc_ref.
  destruct (String.eqb_spec id ""); [contradiction | reflexivity].
Qed.

Lemma autoDispatch_body_path F id w :
  id <> "" ->
  ends_in (body_path F id w) (autoDispatch_body F (JStr id) w).
Proof.
  intros Hid. unfold autoDispatch_body, bind at 1, lift.
  rewrite (doc_ref_string id Hid).
  unfold bind at 1, incident_get.
  destruct (get_incident_fault F) as [e|] eqn:Hget; simpl.
  { apply PathGetFault; assumption. }
  destruct (incidents w !! id) as [d|] eqn:Hinc; simpl.
  2:{ apply PathNotFound; assumption. }
  destruct (already_handled d) eqn:Hh; simpl.
  { eapply PathHandled; eassumption. }
  assert (Hopen : open_incident F w id d) by (repeat split; assumption).
  unfold bind at 1, responders_query_available.
  destruct (query_responders_fault F) as [e|] eqn:Hq; simpl.
  { eapply PathQueryFault; eassumption. }
  rewrite query_limit_1.
  destruct (List.find is_available (responders w)) as [[rid rd]|] eqn:Hfind.
  2:{ unfold incident_update. rewrite Hinc.
      destruct (update_pending_fault F) as [e|] eqn:Hp; simpl.
      - eapply PathNoCapacityFault; eassumption.
      - eapply PathNoCapacity; eassumption. }
  assert (Hsel : selected F w rid rd) by (split; assumption).
  unfold bind at 1. rewrite notify_responder_run.
  destruct (notification_for F (JStr id) d rid rd) as [evs|e] eqn:Hn; simpl.
  2:{ eapply PathNotifyThrow; eassumption. }
  unfold bind at 1, incident_update. simpl. rewrite Hinc.
  destruct (update_dispatched_fault F) as [e|] eqn:Hd; simpl.
  { eapply PathDispatchedFault; eassumption. }
  unfold responder_update. simpl.
  destruct (update_responder_fault F) as [e|] eqn:Hr; simpl.
  { eapply PathResponderFault; eassumption. }
  destruct (update_by_id_present rid (en_route_fields (JStr id)) (responders w))
    as (l1 & x & l2 & _ & Hupd).
  { apply (find_some_in _ _ Hfind). }
  rewrite Hupd. simpl.
  eapply PathSuccess; eassumption.
Qed.

Lemma doc_ref_cases (v : jsval) :
  (exists id, v = JStr id /\ id <> "" /\ doc_ref v = Ok id)
  \/ (exists e, doc_ref v = Throw e).
Proof.
  destruct v; simpl; eauto.
  destruct (String.eqb_spec s ""); eauto.
Qed.

Lemma autoDispatch_run_path F payload w :
  ends_in (run_path F payload w) (autoDispatch F payload w).
Proof.
  unfold autoDispatch, bind, lift.
  destruct (get_prop payload "incidentId") as [v|e] eqn:Hp; simpl.
  2:{ apply RunPayloadThrow; assumption. }
  destruct (truthy v) eqn:Hv; simpl.
  2:{ eapply RunNoId; eassumption. }
  destruct (doc_ref_cases v) as [(id & -> & Hid & Href) | (e & Href)].
  - unfold try_catch.
    pose proof (autoDispatch_body_path F id w Hid) as Hbody.
    unfold ends_in in Hbody.
    destruct (autoDispatch_body F (JStr id) w) as [w1 [[]|e]]; simpl in Hbody.
    + eapply RunBody; eassumption.
    + unfold autoDispatch_handler, bind, lift. rewrite Href.
      unfold incident_update.
      destruct (update_failed_fault F) as [e'|] eqn:Hf; simpl.
      * eapply RunHandlerFault; eassumption.
      * destruct (incidents w1 !! id) as [d1|] eqn:Hinc; simpl.
        -- eapply RunRecorded; eassumption.
        -- eapply RunHandlerNotFound; eassumption.
  - unfold try_catch, autoDispatch_body, autoDispatch_handler, bind, lift.
    rewrite Href. simpl. eapply RunBadId; eassumption.
Qed.

Lemma count_app p t1 t2 : count p (t1 ++ t2) = (count p t1 + count p t2)%nat.
Proof. unfold count. rewrite List.filter_app, List.length_app. reflexivity. Qed.

Lemma truthy_id (id : string) : id <> "" -> truthy (JStr id) = true.
Proof.
  intros Hne. simpl. destruct (String.eqb_spec id ""); [contradiction | reflexivity].
Qed.

Lemma dispatch_message_ok incidentId d rid rd :
  has_location d = true ->
  exists msg,
    dispatch_message incidentId d rid rd = Ok msg
    /\ fcm_token msg = field rd "fcmToken"
    /\ chosen_by (EvNotify msg) = Some rid.
Proof.
  unfold has_location, dispatch_message. intros Hloc.
  destruct (field d "location") eqn:Hl; try discriminate; simpl;
    repeat match goal with
           | |- context [if ?b then _ else _] => destruct b
           end; simpl; eexists; repeat split; reflexivity.
Qed.

(** The notification step adds nothing for a responder without token, and
    one message addressed to the responder's token otherwise. *)
Lemma notification_for_events F incidentId d rid rd evs :
  notification_for F incidentId d rid rd = Ok evs ->
  (truthy (field rd "fcmToken") = false /\ evs = [])
  \/ (truthy (field rd "fcmToken") = true /\
      exists msg, evs = [EvNotify msg]
                  /\ dispatch_message incidentId d rid rd = Ok msg
                  /\ fcm_token msg = field rd "fcmToken"
                  /\ chosen_by (EvNotify msg) = Some rid).
Proof.
  unfold notification_for.
  destruct (truthy (field rd "fcmToken")); [|intros [= <-]; left; split; reflexivity].
  destruct (dispatch_message incidentId d rid rd) as [msg|e] eqn:Hmsg; simpl;
    [|discriminate].
  destruct (send_fault F); [discriminate|]. intros [= <-]. right.
  split; [reflexivity|]. exists msg. repeat split.
  - unfold dispatch_message in Hmsg.
    destruct (get_prop (field d "location") "latitude"); simpl in Hmsg; [|discriminate].
    destruct (get_prop (field d "location") "longitude"); simpl in Hmsg; [|discriminate].
    injection Hmsg as <-. reflexivity.
  - unfold dispatch_message in Hmsg.
    destruct (get_prop (field d "location") "latitude"); simpl in Hmsg; [|discriminate].
    destruct (get_prop (field d "location") "longitude"); simpl in Hmsg; [|discriminate].
    injection Hmsg as <-. reflexivity.
Qed.

Lemma notification_for_count F incidentId d rid rd evs :
  notification_for F incidentId d rid rd = Ok evs ->
  count is_incident_write evs = 0%nat
  /\ count is_responder_write evs = 0%nat
  /\ (count is_notify evs <= 1)%nat.
Proof.
  intros H. apply notification_for_events in H as [[_ ->] | [_ (msg & -> & _)]];
    unfold count; simpl; lia.
Qed.

(** The run of a dispatch that goes through, as one equation. *)
Lemma success_run F payload w id d rid rd evs rs' :
  get_prop payload "incidentId" = Ok (JStr id) ->
  id <> "" ->
  open_incident F w id d ->
  selected F w rid rd ->
  notification_for F (JStr id) d rid rd = Ok evs ->
  update_dispatched_fault F = None ->
  update_responder_fault F = None ->
  update_by_id rid (en_route_fields (JStr id)) (responders w) = Some rs' ->
  autoDispatch F payload w =
  (write_responder
     (write_incident (add_events w evs) id (dispatched_fields rid) d)
     rid (en_route_fields (JStr id)) rs',
   Ok tt).
Proof.
  intros Hp Hid (Hget & Hinc & Hh) (Hq & Hfind) Hn Hd Hr Hupd.
  unfold autoDispatch, bind at 1, lift. rewrite Hp, (truthy_id id Hid). simpl.
  unfold try_catch, autoDispatch_body, bind at 1, lift.
  rewrite (doc_ref_string id Hid).
  unfold bind at 1, incident_get. rewrite Hget, Hinc, Hh.
  unfold bind at 1, responders_query_available.
  rewrite Hq, query_limit_1, Hfind.
  unfold bind at 1. rewrite notify_responder_run, Hn.
  unfold bind at 1, incident_update. simpl. rewrite Hd, Hinc.
  unfold responder_update. simpl. rewrite Hr, Hupd. reflexivity.
Qed.

(** The run of an invocation that finds no available responder. *)
Lemma no_capacity_run F payload w id d :
  get_prop payload "incidentId" = Ok (JStr id) ->
  id <> "" ->
  open_incident F w id d ->
  query_responders_fault F = None ->
  List.find is_available (responders w) = None ->
  update_pending_fault F = None ->
  autoDispatch F payload w = (write_incident w id pending_fields d, Ok tt).
Proof.
  intros Hp Hid (Hget & Hinc & Hh) Hq Hfind Hpend.
  unfold autoDispatch, bind at 1, lift. rewrite Hp, (truthy_id id Hid). simpl.
  unfold try_catch, autoDispatch_body, bind at 1, lift.
  rewrite (doc_ref_string id Hid).
  unfold bind at 1, incident_get. rewrite Hget, Hinc, Hh.
  unfold bind at 1, responders_query_available.
  rewrite Hq, query_limit_1, Hfind.
  unfold incident_update. rewrite Hpend, Hinc. reflexivity.
Qed.

(** ** C1: the dispatch that goes through *)

(** C1, as amended.  When the incident exists, is neither [dispatched] nor
    [resolved], some responder is [available] and no call fails (document
    ids being distinct, as keys are; and the incident having a [location]
    in case the first available responder has a token, since the message
    reads it): the first available responder, the one with no available
    responder before it, and no other record of the collection, goes from
    [available] to [en_route] with
    [currentIncidentId] set to the incident id; the incident, and no other
    incident, becomes [dispatched] with [dispatchedTo] that responder and the
    simulated route duration; the trace grows by the incident write, the
    responder write and, before them, one notification addressed to the
    responder's token when it has one, none when it has not. *)
Theorem dispatch_success payload w id d :
  get_prop payload "incidentId" = Ok (JStr id) ->
  id <> "" ->
  incidents w !! id = Some d ->
  already_handled d = false ->
  (forall r, List.find is_available (responders w) = Some r ->
             truthy (field (snd r) "fcmToken") = true ->
             has_location d = true) ->
  Exists (fun r => is_available r = true) (responders w) ->
  List.NoDup (List.map fst (responders w)) ->
  exists l1 rid rd l2 d' rd' notes,
    snd (autoDispatch no_faults payload w) = Ok tt
    /\ responders w = l1 ++ (rid, rd) :: l2
    /\ Forall (fun r => is_available r = false) l1
    /\ is_available (rid, rd) = true
    /\ responders (fst (autoDispatch no_faults payload w)) = l1 ++ (rid, rd') :: l2
    /\ field rd' "status" = JStr "en_route"
    /\ field rd' "currentIncidentId" = JStr id
    /\ incidents (fst (autoDispatch no_faults payload w)) = <[id := d']> (incidents w)
    /\ field d' "status" = JStr "dispatched"
    /\ field d' "dispatchedTo" = JStr rid
    /\ field d' "routeDuration" = JStr simulatedRouteDuration
    /\ trace (fst (autoDispatch no_faults payload w)) =
       trace w ++ notes ++ [EvIncidentWrite id (dispatched_fields rid);
                            EvResponderWrite rid (en_route_fields (JStr id))]
    /\ (if truthy (field rd "fcmToken")
        then exists msg, notes = [EvNotify msg]
                         /\ fcm_token msg = field rd "fcmToken"
        else notes = []).
Proof.
  intros Hp Hid Hinc Hh Hloc Hex Hnodup.
  destruct (exists_available_find _ Hex) as [[rid rd] Hfind].
  destruct (proj1 (find_some_split _ _) Hfind) as (l1 & l2 & Hrs & Hl1 & Hav).
  assert (Hnotin : ~ In rid (List.map fst l1)).
  { rewrite Hrs, List.map_app in Hnodup. simpl in Hnodup.
    apply List.NoDup_remove_2 in Hnodup. intros Hin. apply Hnodup.
    apply List.in_or_app. left. exact Hin. }
  assert (Hn : exists notes,
             notification_for no_faults (JStr id) d rid rd = Ok notes).
  { unfold notification_for.
    destruct (truthy (field rd "fcmToken")) eqn:Htok; [|eauto].
    destruct (dispatch_message_ok (JStr id) d rid rd (Hloc _ Hfind Htok))
      as (msg & -> & _).
    simpl. eauto. }
  destruct Hn as [notes Hn].
  pose proof (update_by_id_split rid (en_route_fields (JStr id)) l1 l2 rd Hnotin)
    as Hupd.
  rewrite <- Hrs in Hupd.
  rewrite (success_run no_faults payload w id d rid rd notes _ Hp Hid
             (conj eq_refl (conj Hinc Hh)) (conj eq_refl Hfind) Hn
             eq_refl eq_refl Hupd).
  exists l1, rid, rd, l2, (merge_fields (dispatched_fields rid) d),
         (merge_fields (en_route_fields (JStr id)) rd), notes.
  simpl. repeat split; try assumption; try (rewrite field_merge; reflexivity).
  - rewrite <- !List.app_assoc. reflexivity.
  - apply notification_for_events in Hn
      as [[-> ->] | [-> (msg & -> & _ & Htok & _)]]; eauto.
Qed.

(** A pending incident, a busy responder and, after it, two available ones
    with a token. *)
Lemma dispatch_success_witness :
  exists l1 rid rd l2 d' rd' notes,
    let w := Scenario.world_with Scenario.pending_I1
               [("R0", Scenario.responder_busy);
                ("R1", Scenario.responder_with_token);
                ("R2", Scenario.responder_with_token)] in
    snd (autoDispatch no_faults Scenario.payload_I1 w) = Ok tt
    /\ responders w = l1 ++ (rid, rd) :: l2
    /\ Forall (fun r => is_available r = false) l1
    /\ is_available (rid, rd) = true
    /\ responders (fst (autoDispatch no_faults Scenario.payload_I1 w)) =
       l1 ++ (rid, rd') :: l2
    /\ field rd' "status" = JStr "en_route"
    /\ field rd' "currentIncidentId" = JStr "I1"
    /\ incidents (fst (autoDispatch no_faults Scenario.payload_I1 w)) =
       <["I1" := d']> (incidents w)
    /\ field d' "status" = JStr "dispatched"
    /\ field d' "dispatchedTo" = JStr rid
    /\ field d' "routeDuration" = JStr simulatedRouteDuration
    /\ trace (fst (autoDispatch no_faults Scenario.payload_I1 w)) =
       trace w ++ notes ++ [EvIncidentWrite "I1" (dispatched_fields rid);
                            EvResponderWrite rid (en_route_fields (JStr "I1"))]
    /\ (if truthy (field rd "fcmToken")
        then exists msg, notes = [EvNotify msg]
                         /\ fcm_token msg = field rd "fcmToken"
        else notes = []).
Proof.
  apply (dispatch_success Scenario.payload_I1
           (Scenario.world_with Scenario.pending_I1
              [("R0", Scenario.responder_busy);
               ("R1", Scenario.responder_with_token);
               ("R2", Scenario.responder_with_token)])
           "I1" Scenario.pending_I1).
  - reflexivity.
  - discriminate.
  - reflexivity.
  - reflexivity.
  - intros _ _ _. reflexivity.
  - apply Exists_cons_tl, Exists_cons_hd. reflexivity.
  - simpl. repeat (apply List.NoDup_cons; [simpl; intuition discriminate|]).
    apply List.NoDup_nil.
Defined.

(** The incident carries nothing but its status and the one available
    responder has no token: the dispatch goes through, and nothing is
    sent. *)
Example dispatch_of_bare_records :
  let w := mkWorld {["I1" := list_to_map [("status", JStr "pending")]]}
                   [("R1", Scenario.responder_without_token)] [] in
  let w' := fst (autoDispatch no_faults Scenario.payload_I1 w) in
  has_location (list_to_map [("status", JStr "pending")]) = false
  /\ snd (autoDispatch no_faults Scenario.payload_I1 w) = Ok tt
  /\ Scenario.status_of w' "I1" = JStr "dispatched"
  /\ field (default ∅ (incidents w' !! "I1")) "dispatchedTo" = JStr "R1"
  /\ List.map (fun r => field (snd r) "status") (responders w') = [JStr "en_route"]
  /\ trace w' = [EvIncidentWrite "I1" (dispatched_fields "R1");
                 EvResponderWrite "R1" (en_route_fields (JStr "I1"))].
Proof. repeat split; reflexivity. Qed.

(** C1 as stated fails: with every hypothesis of the claim in force, a
    responder without [fcmToken] is dispatched and no notification is
    sent. *)
Lemma no_token_no_notification :
  let w := Scenario.world_with Scenario.pending_I1
             [("R1", Scenario.responder_without_token)] in
  let w' := fst (autoDispatch no_faults Scenario.payload_I1 w) in
  incidents w !! "I1" = Some Scenario.pending_I1
  /\ already_handled Scenario.pending_I1 = false
  /\ Exists (fun r => is_available r = true) (responders w)
  /\ snd (autoDispatch no_faults Scenario.payload_I1 w) = Ok tt
  /\ Scenario.status_of w' "I1" = JStr "dispatched"
  /\ count is_notify (trace w') = 0%nat.
Proof.
  repeat split; try reflexivity.
  apply Exists_cons_hd. reflexivity.
Qed.

(** ** C2: an incident that is already handled *)

(** C2, as amended.  When the read of the incident goes through and the
    incident is [dispatched] or [resolved], the invocation changes nothing:
    both collections and the trace are as before, and the promise
    resolves. *)
Theorem handled_incident_untouched F payload w id d :
  get_incident_fault F = None ->
  get_prop payload "incidentId" = Ok (JStr id) ->
  incidents w !! id = Some d ->
  already_handled d = true ->
  autoDispatch F payload w = (w, Ok tt).
Proof.
  intros Hget Hp Hinc Hh.
  unfold autoDispatch, bind at 1, lift. rewrite Hp.
  destruct (truthy (JStr id)) eqn:Hid; simpl; [|reflexivity].
  assert (Hne : id <> "").
  { intros ->. discriminate Hid. }
  unfold try_catch, autoDispatch_body, bind at 1, lift.
  rewrite (doc_ref_string id Hne).
  unfold bind at 1, incident_get. rewrite Hget, Hinc, Hh. reflexivity.
Qed.

Lemma handled_incident_untouched_witness :
  autoDispatch no_faults Scenario.payload_I1
    (Scenario.world_with (Scenario.incident_with_status "resolved")
       [("R1", Scenario.responder_with_token)])
  = (Scenario.world_with (Scenario.incident_with_status "resolved")
       [("R1", Scenario.responder_with_token)],
     Ok tt).
Proof.
  apply (handled_incident_untouched no_faults Scenario.payload_I1 _ "I1"
           (Scenario.incident_with_status "resolved")).
  - reflexivity.
  - reflexivity.
  - reflexivity.
  - reflexivity.
Defined.

(** C2 as stated fails: when the read of a [resolved] incident throws, the
    [catch] block writes [dispatch_failed] over it. *)
Lemma resolved_incident_overwritten_on_read_fault :
  let F := mkDispatchFaults (Some Scenario.unavailable)
                            None None None None None None in
  let w := Scenario.world_with (Scenario.incident_with_status "resolved")
             [("R1", Scenario.responder_with_token)] in
  let w' := fst (autoDispatch F Scenario.payload_I1 w) in
  Scenario.status_of w "I1" = JStr "resolved"
  /\ Scenario.status_of w' "I1" = JStr "dispatch_failed"
  /\ count is_incident_write (trace w') = 1%nat.
Proof. repeat split; reflexivity. Qed.

(** ** C3: no responder is available *)

(** However the invocation ends, it leaves the responder collection alone
    when no responder is available. *)
Lemma no_capacity_keeps_responders F payload w :
  Forall (fun r => is_available r = false) (responders w) ->
  responders (fst (autoDispatch F payload w)) = responders w.
Proof.
  intros Hnone. apply find_none_iff in Hnone.
  pose proof (autoDispatch_run_path F payload w) as Hrun. unfold ends_in in Hrun.
  destruct (autoDispatch F payload w) as [w' r]. simpl in *.
  inversion Hrun as [ | | | ? ? ? ? Hb | ? ? ? ? ? ? Hb | ? ? ? ? ? Hb
                      | ? ? ? ? ? ? Hb ]; subst; try reflexivity;
    inversion Hb; subst; simpl; try reflexivity;
    match goal with
    | H : selected _ _ _ _ |- _ => destruct H; congruence
    end.
Qed.

(** C3.  When the incident exists and is neither [dispatched] nor
    [resolved] and no responder is [available] (the read, the query and the
    update going through): the incident, and nothing else, is updated to
    [pending_dispatch] with the message [No available responders.], the
    responder collection is unchanged and the promise resolves. *)
Theorem no_capacity_pending F payload w id d :
  get_incident_fault F = None ->
  query_responders_fault F = None ->
  update_pending_fault F = None ->
  get_prop payload "incidentId" = Ok (JStr id) ->
  id <> "" ->
  incidents w !! id = Some d ->
  already_handled d = false ->
  Forall (fun r => is_available r = false) (responders w) ->
  exists d',
    snd (autoDispatch F payload w) = Ok tt
    /\ incidents (fst (autoDispatch F payload w)) = <[id := d']> (incidents w)
    /\ field d' "status" = JStr "pending_dispatch"
    /\ field d' "dispatchMessage" = JStr "No available responders."
    /\ responders (fst (autoDispatch F payload w)) = responders w
    /\ trace (fst (autoDispatch F payload w)) =
       trace w ++ [EvIncidentWrite id pending_fields].
Proof.
  intros Hget Hq Hpend Hp Hid Hinc Hh Hnone.
  apply find_none_iff in Hnone.
  rewrite (no_capacity_run F payload w id d Hp Hid
             (conj Hget (conj Hinc Hh)) Hq Hnone Hpend).
  exists (merge_fields pending_fields d). simpl.
  repeat split; rewrite field_merge; reflexivity.
Qed.

Lemma no_capacity_pending_witness :
  exists d',
    let w := Scenario.world_with Scenario.pending_I1
               [("R0", Scenario.responder_busy)] in
    snd (autoDispatch no_faults Scenario.payload_I1 w) = Ok tt
    /\ incidents (fst (autoDispatch no_faults Scenario.payload_I1 w)) =
       <["I1" := d']> (incidents w)
    /\ field d' "status" = JStr "pending_dispatch"
    /\ field d' "dispatchMessage" = JStr "No available responders."
    /\ responders (fst (autoDispatch no_faults Scenario.payload_I1 w)) =
       responders w
    /\ trace (fst (autoDispatch no_faults Scenario.payload_I1 w)) =
       trace w ++ [EvIncidentWrite "I1" pending_fields].
Proof.
  apply (no_capacity_pending no_faults Scenario.payload_I1
           (Scenario.world_with Scenario.pending_I1
              [("R0", Scenario.responder_busy)])
           "I1" Scenario.pending_I1).
  - reflexivity.
  - reflexivity.
  - reflexivity.
  - reflexivity.
  - discriminate.
  - reflexivity.
  - reflexivity.
  - constructor; [reflexivity | constructor].
Defined.

(** The [pending_dispatch] update is one of the awaited calls of the [try]
    block: when it throws, the [catch] block takes over and the incident
    ends [dispatch_failed]. *)
Example no_capacity_update_fault_ends_failed :
  let F := mkDispatchFaults None None (Some Scenario.unavailable)
                            None None None None in
  let w := Scenario.world_with Scenario.pending_I1
             [("R0", Scenario.responder_busy)] in
  let w' := fst (autoDispatch F Scenario.payload_I1 w) in
  incidents w !! "I1" = Some Scenario.pending_I1
  /\ already_handled Scenario.pending_I1 = false
  /\ Forall (fun r => is_available r = false) (responders w)
  /\ Scenario.status_of w' "I1" = JStr "dispatch_failed".
Proof.
  repeat split; try reflexivity.
  constructor; [reflexivity | constructor].
Qed.

(** ** C4: a failure inside the [try] block *)

(** The [try] block never removes the incident it was given. *)
Lemma body_path_keeps_incident F id w w1 r d :
  body_path F id w w1 r ->
  incidents w !! id = Some d ->
  exists d1, incidents w1 !! id = Some d1.
Proof.
  intros Hb Hinc.
  inversion Hb; subst; simpl; eauto; rewrite lookup_insert_eq; eauto.
Qed.

Lemma notification_error_message F incidentId d rid rd e :
  notification_for F incidentId d rid rd = Throw e ->
  faults_have_messages F ->
  err_message e <> "".
Proof.
  unfold notification_for, dispatch_message. intros H HF.
  destruct (truthy (field rd "fcmToken")); [|discriminate].
  destruct (get_prop (field d "location") "latitude") as [lat|e1] eqn:Hlat; simpl in H.
  - destruct (get_prop (field d "location") "longitude") as [lng|e2] eqn:Hlng;
      simpl in H.
    + destruct (send_fault F) as [e'|] eqn:Hs; [|discriminate].
      injection H as <-. apply HF. rewrite <- Hs. simpl. tauto.
    + injection H as <-.
      destruct (field d "location"); simpl in Hlng;
        repeat match type of Hlng with
               | context [if ?b then _ else _] => destruct b
               end; try discriminate; injection Hlng as <-; discriminate.
  - injection H as <-.
    destruct (field d "location"); simpl in Hlat;
      repeat match type of Hlat with
             | context [if ?b then _ else _] => destruct b
             end; try discriminate; injection Hlat as <-; discriminate.
Qed.

(** Whatever the [try] block throws carries a message when the injected
    faults do. *)
Lemma body_error_message F id w w1 e :
  body_path F id w w1 (Throw e) ->
  faults_have_messages F ->
  err_message e <> "".
Proof.
  intros Hb HF.
  inversion Hb; subst;
    try (apply HF;
         match goal with
         | H : _ F = Some e |- _ => rewrite <- H; simpl; tauto
         end).
  eapply notification_error_message; eassumption.
Qed.

(** The run of an invocation whose [try] block throws and whose [catch]
    block gets its update through. *)
Lemma failure_run F payload w id w1 e d1 :
  get_prop payload "incidentId" = Ok (JStr id) ->
  id <> "" ->
  autoDispatch_body F (JStr id) w = (w1, Throw e) ->
  update_failed_fault F = None ->
  incidents w1 !! id = Some d1 ->
  autoDispatch F payload w = (write_incident w1 id (failed_fields e) d1, Ok tt).
Proof.
  intros Hp Hid Hbody Hf Hd1.
  unfold autoDispatch, bind at 1, lift. rewrite Hp, (truthy_id id Hid). simpl.
  unfold try_catch. rewrite Hbody.
  unfold autoDispatch_handler, bind, lift. rewrite (doc_ref_string id Hid).
  unfold incident_update. rewrite Hf, Hd1. reflexivity.
Qed.

(** C4, as amended.  When the [try] block throws an error [e] (at the read,
    the query, the notification or either update) on an existing incident
    and the update of the [catch] block goes through, the promise resolves
    and the incident ends in status [dispatch_failed] with the message of
    [e] recorded; the recorded message is non-empty as soon as every
    injected fault has a message. *)
Theorem failure_recorded F payload w id d w1 e :
  get_prop payload "incidentId" = Ok (JStr id) ->
  id <> "" ->
  incidents w !! id = Some d ->
  autoDispatch_body F (JStr id) w = (w1, Throw e) ->
  update_failed_fault F = None ->
  exists d',
    snd (autoDispatch F payload w) = Ok tt
    /\ incidents (fst (autoDispatch F payload w)) !! id = Some d'
    /\ field d' "status" = JStr "dispatch_failed"
    /\ field d' "dispatchErrorMessage" = JStr (err_message e)
    /\ (faults_have_messages F -> err_message e <> "").
Proof.
  intros Hp Hid Hinc Hbody Hf.
  pose proof (autoDispatch_body_path F id w Hid) as Hpath.
  unfold ends_in in Hpath. rewrite Hbody in Hpath. simpl in Hpath.
  destruct (body_path_keeps_incident _ _ _ _ _ _ Hpath Hinc) as [d1 Hd1].
  rewrite (failure_run F payload w id w1 e d1 Hp Hid Hbody Hf Hd1). simpl.
  exists (merge_fields (failed_fields e) d1).
  repeat split; try (rewrite field_merge; reflexivity).
  - apply lookup_insert_eq.
  - intros HF. eapply body_error_message; eassumption.
Qed.

(** The notification gateway throws: the incident ends [dispatch_failed]. *)
Lemma failure_recorded_witness :
  exists d',
    let F := mkDispatchFaults None None None (Some Scenario.unavailable)
                              None None None in
    let w := Scenario.world_with Scenario.pending_I1
               [("R1", Scenario.responder_with_token)] in
    snd (autoDispatch F Scenario.payload_I1 w) = Ok tt
    /\ incidents (fst (autoDispatch F Scenario.payload_I1 w)) !! "I1" = Some d'
    /\ field d' "status" = JStr "dispatch_failed"
    /\ field d' "dispatchErrorMessage" =
       JStr (err_message Scenario.unavailable)
    /\ (faults_have_messages F -> err_message Scenario.unavailable <> "").
Proof.
  apply (failure_recorded
           (mkDispatchFaults None None None (Some Scenario.unavailable)
                             None None None)
           Scenario.payload_I1
           (Scenario.world_with Scenario.pending_I1
              [("R1", Scenario.responder_with_token)])
           "I1" Scenario.pending_I1
           (Scenario.world_with Scenario.pending_I1
              [("R1", Scenario.responder_with_token)])
           Scenario.unavailable).
  - reflexivity.
  - discriminate.
  - reflexivity.
  - reflexivity.
  - reflexivity.
Defined.

(** C4 as stated fails: when the notification gateway throws and the update
    of the [catch] block throws as well, the promise rejects and the
    incident keeps the status it had. *)
Lemma failure_not_recorded_when_handler_fails :
  let F := mkDispatchFaults None None None (Some Scenario.unavailable)
                            None None (Some Scenario.unavailable) in
  let w := Scenario.world_with Scenario.pending_I1
             [("R1", Scenario.responder_with_token)] in
  let w' := fst (autoDispatch F Scenario.payload_I1 w) in
  autoDispatch_body F (JStr "I1") w = (w, Throw Scenario.unavailable)
  /\ snd (autoDispatch F Scenario.payload_I1 w) = Throw Scenario.unavailable
  /\ Scenario.status_of w' "I1" = JStr "pending"
  /\ field (default ∅ (incidents w' !! "I1")) "dispatchErrorMessage" = JUndefined.
Proof. repeat split; reflexivity. Qed.

(** ** C5 and C6: the writes of one invocation *)


Lemma count_one_incident_write p id fields :
  count p [EvIncidentWrite id fields] =
  if p (EvIncidentWrite id fields) then 1%nat else 0%nat.
Proof. unfold count. simpl. destruct (p _); reflexivity. Qed.

Lemma count_one_responder_write p id fields :
  count p [EvResponderWrite id fields] =
  if p (EvResponderWrite id fields) then 1%nat else 0%nat.
Proof. unfold count. simpl. destruct (p _); reflexivity. Qed.

(** What the [try] block adds to the three counters. *)
Lemma body_path_counts F id w w1 r :
  body_path F id w w1 r ->
  exists ki kr kn : nat,
    count is_incident_write (trace w1) = (count is_incident_write (trace w) + ki)%nat
    /\ count is_responder_write (trace w1) =
       (count is_responder_write (trace w) + kr)%nat
    /\ count is_notify (trace w1) = (count is_notify (trace w) + kn)%nat
    /\ (kn <= 1)%nat
    /\ match r with
       | Ok _ => (ki <= 1 /\ kr <= ki)%nat
       | Throw _ => (ki <= 1 /\ kr = 0)%nat
       end.
Proof.
  intros Hb.
  inversion Hb; subst; simpl;
    try (exists 0%nat, 0%nat, 0%nat; repeat split; lia);
    try match goal with
        | H : notification_for _ _ _ _ _ = Ok ?evs |- _ =>
            destruct (notification_for_count _ _ _ _ _ _ H) as (Hi & Hr & Hn)
        end;
    rewrite ?count_app, ?count_one_incident_write, ?count_one_responder_write;
    simpl.
  - exists 1%nat, 0%nat, 0%nat. repeat split; lia.
  - exists 0%nat, 0%nat, (count is_notify evs). repeat split; lia.
  - exists 1%nat, 0%nat, (count is_notify evs). repeat split; lia.
  - exists 1%nat, 1%nat, (count is_notify evs). repeat split; lia.
Qed.

Lemma reaches_selection_open payload w id d :
  get_prop payload "incidentId" = Ok (JStr id) ->
  id <> "" ->
  incidents w !! id = Some d ->
  reaches_selection payload w = negb (already_handled d).
Proof.
  intros Hp Hid Hinc. unfold reaches_selection. rewrite Hp, Hinc.
  destruct (String.eqb_spec id ""); [contradiction | reflexivity].
Qed.

(** C6, as amended.  Every invocation writes at most one responder document
    and sends at most one notification; it writes the incident at most
    twice; and when no call fails and the payload's [incidentId] is a
    document id (a string without [/], if a string at all) it writes the
    incident exactly once if it gets past the guards (the payload names an
    existing incident that is neither [dispatched] nor [resolved]) and not
    at all otherwise. *)
Theorem write_counts F payload w :
  ((count is_incident_write (trace (fst (autoDispatch F payload w)))
    <= count is_incident_write (trace w) + 2)%nat
   /\ (count is_responder_write (trace (fst (autoDispatch F payload w)))
       <= count is_responder_write (trace w) + 1)%nat
   /\ (count is_notify (trace (fst (autoDispatch F payload w)))
       <= count is_notify (trace w) + 1)%nat)
  /\ (payload_id_plain payload = true ->
      count is_incident_write (trace (fst (autoDispatch no_faults payload w))) =
      (count is_incident_write (trace w)
       + if reaches_selection payload w then 1 else 0)%nat).
Proof.
  split.
  - pose proof (autoDispatch_run_path F payload w) as Hrun. unfold ends_in in Hrun.
    destruct (autoDispatch F payload w) as [w' r]. simpl in *.
    inversion Hrun as [ | | | ? ? ? ? Hb | ? ? ? ? ? ? Hb | ? ? ? ? ? Hb
                        | ? ? ? ? ? ? Hb ]; subst; try lia;
      destruct (body_path_counts _ _ _ _ _ Hb) as (ki & kr & kn & Hi & Hr & Hn & ? & ?);
      simpl; rewrite ?count_app, ?count_one_incident_write; simpl; lia.
  - intros _.
    pose proof (autoDispatch_run_path no_faults payload w) as Hrun.
    unfold ends_in in Hrun.
    destruct (autoDispatch no_faults payload w) as [w' r]. simpl in *.
    inversion Hrun as [ e Hp | v Hp Hv | v e Hp Hv Href | id ? Hp Hid Hb
                        | id ? ? ? Hp Hid Hb Hf | id ? ? Hp Hid Hb Hf Hnone
                        | id ? e d1 Hp Hid Hb Hf Hd1 ]; subst.
    + unfold reaches_selection. rewrite Hp. lia.
    + unfold reaches_selection. rewrite Hp.
      destruct v; try lia. simpl in Hv.
      destruct (String.eqb s ""); [simpl; lia | discriminate].
    + unfold reaches_selection. rewrite Hp.
      destruct v; try lia. simpl in Href.
      destruct (String.eqb s ""); [simpl; lia | discriminate].
    + inversion Hb as [ | Hg Hinc | d Hg Hinc Hh | | | d [_ [Hinc Hh]] | | |
                        | d rid rd evs rs' [_ [Hinc Hh]] ? Hn ]; subst.
      * unfold reaches_selection. rewrite Hp, Hinc.
        destruct (String.eqb id ""); simpl; lia.
      * rewrite (reaches_selection_open _ _ _ _ Hp Hid Hinc), Hh. simpl. lia.
      * rewrite (reaches_selection_open _ _ _ _ Hp Hid Hinc), Hh. simpl.
        rewrite count_app, count_one_incident_write. reflexivity.
      * rewrite (reaches_selection_open _ _ _ _ Hp Hid Hinc), Hh. simpl.
        destruct (notification_for_count _ _ _ _ _ _ Hn) as (Hi & _).
        rewrite !count_app, Hi, count_one_incident_write,
          count_one_responder_write. simpl. lia.
    + discriminate Hf.
    + inversion Hb; subst; try discriminate;
        match goal with
        | H : open_incident _ _ _ _ |- _ => destruct H as (_ & ? & _); congruence
        end.
    + inversion Hb as [ | | | | | | d ? ? ? [_ [Hinc Hh]] | | | ]; subst;
        try discriminate.
      rewrite (reaches_selection_open _ _ _ _ Hp Hid Hinc), Hh. simpl.
      rewrite count_app, count_one_incident_write. reflexivity.
Qed.

(** A pending incident named by its id, and one available responder: within
    the bounds, and one incident write when nothing fails. *)
Lemma write_counts_witness :
  let w := Scenario.world_with Scenario.pending_I1
             [("R1", Scenario.responder_with_token)] in
  payload_id_plain Scenario.payload_I1 = true
  /\ ((count is_incident_write
         (trace (fst (autoDispatch no_faults Scenario.payload_I1 w)))
       <= count is_incident_write (trace w) + 2)%nat
      /\ (count is_responder_write
            (trace (fst (autoDispatch no_faults Scenario.payload_I1 w)))
          <= count is_responder_write (trace w) + 1)%nat
      /\ (count is_notify
            (trace (fst (autoDispatch no_faults Scenario.payload_I1 w)))
          <= count is_notify (trace w) + 1)%nat)
  /\ count is_incident_write
       (trace (fst (autoDispatch no_faults Scenario.payload_I1 w))) =
     (count is_incident_write (trace w)
      + if reaches_selection Scenario.payload_I1 w then 1 else 0)%nat.
Proof.
  destruct (write_counts no_faults Scenario.payload_I1
              (Scenario.world_with Scenario.pending_I1
                 [("R1", Scenario.responder_with_token)])) as [Hbounds Hexact].
  split; [reflexivity|]. split; [exact Hbounds|]. apply Hexact. reflexivity.
Defined.

(** C6 as stated fails: an invocation for an incident that is already
    [dispatched] writes no incident document at all. *)
Lemma handled_incident_zero_writes :
  let w := Scenario.world_with (Scenario.incident_with_status "dispatched")
             [("R1", Scenario.responder_with_token)] in
  let w' := fst (autoDispatch no_faults Scenario.payload_I1 w) in
  snd (autoDispatch no_faults Scenario.payload_I1 w) = Ok tt
  /\ count is_incident_write (trace w') = 0%nat.
Proof. split; reflexivity. Qed.

Lemma trace_same (t evs : list Event) : t = t ++ evs -> evs = [].
Proof.
  intros H. rewrite <- (List.app_nil_r t) in H at 1.
  apply List.app_inv_head in H. symmetry. exact H.
Qed.

(** Reads off the events an invocation added from an equation between its
    final trace and [trace w ++ evs]. *)
Ltac added_events H :=
  simpl in H; rewrite <- ?List.app_assoc in H;
  first [ apply trace_same in H | apply List.app_inv_head in H ];
  subst.






(** With the responder update alone failing, the incident is written twice:
    [dispatched], then [dispatch_failed]; the responder stays [available]
    and the incident keeps its [dispatchedTo]. *)
Example responder_fault_two_incident_writes :
  let F := mkDispatchFaults None None None None None
                            (Some Scenario.unavailable) None in
  let w := Scenario.world_with Scenario.pending_I1
             [("R1", Scenario.responder_with_token)] in
  let w' := fst (autoDispatch F Scenario.payload_I1 w) in
  count is_incident_write (trace w') = 2%nat
  /\ Scenario.status_of w' "I1" = JStr "dispatch_failed"
  /\ field (default ∅ (incidents w' !! "I1")) "dispatchedTo" = JStr "R1"
  /\ List.map (fun r => field (snd r) "status") (responders w')
     = [JStr "available"].
Proof. repeat split; reflexivity. Qed.

(** ** C7: which responder is selected *)

(** Every responder an invocation assigns, updates or notifies is the
    first record of the collection, in store order, whose [status] is
    [available]: every record before it has another status. *)
Lemma named_responder_is_first_available F payload w evs e rid :
  trace (fst (autoDispatch F payload w)) = trace w ++ evs ->
  In e evs ->
  chosen_by e = Some rid ->
  exists l1 rd l2,
    responders w = l1 ++ (rid, rd) :: l2
    /\ Forall (fun r => is_available r = false) l1
    /\ is_available (rid, rd) = true.
Proof.
  pose proof (autoDispatch_run_path F payload w) as Hrun. unfold ends_in in Hrun.
  destruct (autoDispatch F payload w) as [w' r]. simpl in Hrun |- *.
  intros Ht Hin Hc.
  assert (Hbody : forall id w1 r1 evs1,
             body_path F id w w1 r1 ->
             trace w1 = trace w ++ evs1 ->
             In e evs1 ->
             exists rd, List.find is_available (responders w) = Some (rid, rd)).
  { clear Ht Hin Hrun. intros id w1 r1 evs1 Hb Ht Hin.
    assert (Hnotes : forall d rid0 rd notes,
               notification_for F (JStr id) d rid0 rd = Ok notes ->
               In e notes -> rid0 = rid).
    { intros d rid0 rd notes Hn Hin'.
      apply notification_for_events in Hn
        as [[_ ->] | [_ (msg & -> & _ & _ & Hm)]];
        [ destruct Hin' | destruct Hin' as [<- | []]; congruence ]. }
    inversion Hb as [ | | | | | | | ? rid0 rd notes ? ? [_ Hfind] Hn
                      | ? rid0 rd notes ? ? [_ Hfind] Hn
                      | ? rid0 rd notes ? ? [_ Hfind] Hn ];
      subst; added_events Ht; simpl in Hin;
      try contradiction;
      try (destruct Hin as [<- | []]; simpl in Hc; discriminate Hc).
    - rewrite <- (Hnotes _ _ _ _ Hn Hin). eauto.
    - apply List.in_app_or in Hin as [Hin | [<- | []]].
      + rewrite <- (Hnotes _ _ _ _ Hn Hin). eauto.
      + injection Hc as <-. eauto.
    - apply List.in_app_or in Hin as [Hin | [<- | [<- | []]]].
      + rewrite <- (Hnotes _ _ _ _ Hn Hin). eauto.
      + injection Hc as <-. eauto.
      + injection Hc as <-. eauto. }
  assert (Hfound : exists rd,
             List.find is_available (responders w) = Some (rid, rd)).
  { inversion Hrun as [ | | | id ? Hp Hid Hb | id ? ? ? Hp Hid Hb Hf
                        | id ? ? Hp Hid Hb Hf Hnone
                        | id w1 e1 d1 Hp Hid Hb Hf Hd1 ];
      subst;
      try (apply trace_same in Ht; subst; contradiction);
      try (eapply Hbody; eassumption).
    assert (Hsplit : exists evs1, trace w1 = trace w ++ evs1).
    { clear - Hb. inversion Hb; subst; simpl;
        rewrite <- ?List.app_assoc; try (eexists; reflexivity);
        exists []; rewrite List.app_nil_r; reflexivity. }
    destruct Hsplit as [evs1 Ht1]. simpl in Ht. rewrite Ht1 in Ht.
    added_events Ht.
    apply List.in_app_or in Hin as [Hin | [<- | []]].
    - eapply Hbody; eassumption.
    - discriminate Hc. }
  destruct Hfound as [rd Hfind].
  apply find_some_split in Hfind as (l1 & l2 & Hrs & Hl1 & Hav).
  exists l1, rd, l2. repeat split; assumption.
Qed.

(** The choice reads the ids, the order and the [status] fields only: two
    collections that agree on these yield the same responder id, whatever
    the locations stored in them. *)
Lemma selection_reads_status_only (rs1 rs2 : list (string * doc)) :
  List.map (fun r => (fst r, is_available r)) rs1
  = List.map (fun r => (fst r, is_available r)) rs2 ->
  option_map fst (List.find is_available rs1)
  = option_map fst (List.find is_available rs2).
Proof.
  revert rs2. induction rs1 as [|r1 rs1 IH]; intros [|r2 rs2]; simpl;
    try discriminate; [reflexivity|].
  intros [= Hid Hav Hrest]. rewrite <- Hav.
  destruct (is_available r1); simpl; [congruence | apply IH; assumption].
Qed.

(** Two responders are available; the one stored first is chosen although
    the other one stands at the incident's location. *)
Example farther_responder_is_chosen :
  let w' := fst (autoDispatch no_faults Scenario.payload_I1 Distance.world) in
  field (default ∅ (incidents w' !! "I1")) "dispatchedTo" = JStr "R_far"
  /\ List.map (fun r => (fst r, field (snd r) "status")) (responders w')
     = [("R_far", JStr "en_route"); ("R_near", JStr "available")].
Proof. split; reflexivity. Qed.

(** The notification step of a responder that can be notified. *)
Lemma notification_goes_through F incidentId d rid rd :
  send_fault F = None ->
  (truthy (field rd "fcmToken") = true -> has_location d = true) ->
  exists notes, notification_for F incidentId d rid rd = Ok notes.
Proof.
  intros Hsend Hloc. unfold notification_for.
  destruct (truthy (field rd "fcmToken")); [|eauto].
  destruct (dispatch_message_ok incidentId d rid rd (Hloc eq_refl))
    as (msg & -> & _).
  simpl. rewrite Hsend. eauto.
Qed.

(** C7.  The responder an invocation selects is the first record of the
    collection, in store order, whose [status] is [available], and no
    ranking or distance enters the choice.  In one direction, whatever
    calls fail, every responder the invocation assigns, updates or notifies
    is that record: every record before it has another status.  In the
    other, when the collection holds an available record with none before
    it, the incident is open and no call fails (the incident having a
    [location] in case that responder has a token), the invocation does
    select it: the incident is [dispatched] to it, the responder update is
    addressed to it, and so is whatever notification is sent. *)
Theorem selects_first_available payload w :
  (forall F evs e rid,
      trace (fst (autoDispatch F payload w)) = trace w ++ evs ->
      In e evs ->
      chosen_by e = Some rid ->
      exists l1 rd l2,
        responders w = l1 ++ (rid, rd) :: l2
        /\ Forall (fun r => is_available r = false) l1
        /\ is_available (rid, rd) = true)
  /\ (forall F id d l1 rid rd l2,
        get_incident_fault F = None ->
        query_responders_fault F = None ->
        send_fault F = None ->
        update_dispatched_fault F = None ->
        update_responder_fault F = None ->
        get_prop payload "incidentId" = Ok (JStr id) ->
        id <> "" ->
        incidents w !! id = Some d ->
        already_handled d = false ->
        (truthy (field rd "fcmToken") = true -> has_location d = true) ->
        responders w = l1 ++ (rid, rd) :: l2 ->
        Forall (fun r => is_available r = false) l1 ->
        is_available (rid, rd) = true ->
        exists d' notes,
          snd (autoDispatch F payload w) = Ok tt
          /\ incidents (fst (autoDispatch F payload w)) = <[id := d']> (incidents w)
          /\ field d' "status" = JStr "dispatched"
          /\ field d' "dispatchedTo" = JStr rid
          /\ trace (fst (autoDispatch F payload w)) =
             trace w ++ notes ++ [EvIncidentWrite id (dispatched_fields rid);
                                  EvResponderWrite rid (en_route_fields (JStr id))]
          /\ (forall e, In e notes -> chosen_by e = Some rid)).
Proof.
  split.
  - intros F evs e rid. apply named_responder_is_first_available.
  - intros F id d l1 rid rd l2 Hget Hq Hsend Hd Hr Hp Hid Hinc Hh Hloc Hrs Hl1 Hav.
    assert (Hfind : List.find is_available (responders w) = Some (rid, rd)).
    { apply find_some_split. exists l1, l2. repeat split; assumption. }
    destruct (update_by_id_present rid (en_route_fields (JStr id)) (responders w)
                (find_some_in _ _ Hfind)) as (k1 & x & k2 & _ & Hupd).
    destruct (notification_goes_through F (JStr id) d rid rd Hsend Hloc)
      as [notes Hn].
    rewrite (success_run F payload w id d rid rd notes _ Hp Hid
               (conj Hget (conj Hinc Hh)) (conj Hq Hfind) Hn Hd Hr Hupd).
    exists (merge_fields (dispatched_fields rid) d), notes.
    simpl. repeat split; try (rewrite field_merge; reflexivity).
    + rewrite <- !List.app_assoc. reflexivity.
    + intros e Hin. apply notification_for_events in Hn
        as [[_ ->] | [_ (msg & -> & _ & _ & Hm)]];
        [ destruct Hin | destruct Hin as [<- | []]; exact Hm ].
Qed.

(** A busy responder is stored first and two available ones follow: the
    responder update names the first of the two, which comes after the busy
    one, and the incident is dispatched to it. *)
Lemma selects_first_available_witness :
  (exists l1 rd l2,
      responders Distance.world_after_busy = l1 ++ ("R_far", rd) :: l2
      /\ Forall (fun r => is_available r = false) l1
      /\ is_available ("R_far", rd) = true)
  /\ (exists d' notes,
        snd (autoDispatch no_faults Scenario.payload_I1 Distance.world_after_busy)
        = Ok tt
        /\ incidents (fst (autoDispatch no_faults Scenario.payload_I1
                             Distance.world_after_busy))
           = <["I1" := d']> (incidents Distance.world_after_busy)
        /\ field d' "status" = JStr "dispatched"
        /\ field d' "dispatchedTo" = JStr "R_far"
        /\ trace (fst (autoDispatch no_faults Scenario.payload_I1
                         Distance.world_after_busy))
           = trace Distance.world_after_busy ++ notes
             ++ [EvIncidentWrite "I1" (dispatched_fields "R_far");
                 EvResponderWrite "R_far" (en_route_fields (JStr "I1"))]
        /\ (forall e, In e notes -> chosen_by e = Some "R_far")).
Proof.
  destruct (selects_first_available Scenario.payload_I1
              Distance.world_after_busy) as [Hnamed Hselected].
  split.
  - apply (Hnamed no_faults
             (trace (fst (autoDispatch no_faults Scenario.payload_I1
                            Distance.world_after_busy)))
             (EvResponderWrite "R_far" (en_route_fields (JStr "I1")))
             "R_far").
    + reflexivity.
    + vm_compute. right. left. reflexivity.
    + reflexivity.
  - apply (Hselected no_faults "I1" Scenario.pending_I1
             [("R0", Scenario.responder_busy)] "R_far" Distance.far
             [("R_near", Distance.near)]).
    + reflexivity.
    + reflexivity.
    + reflexivity.
    + reflexivity.
    + reflexivity.
    + reflexivity.
    + discriminate.
    + reflexivity.
    + reflexivity.
    + intros _. reflexivity.
    + reflexivity.
    + constructor; [reflexivity | constructor].
    + reflexivity.
Defined.

(** ** C9: the responder invariant *)

Lemma update_by_id_lookup id fields (rs rs' : list (string * doc)) :
  update_by_id id fields rs = Some rs' ->
  forall (i : nat) (r : string * doc),
    rs !! i = Some r ->
    exists r', rs' !! i = Some r'
               /\ fst r' = fst r
               /\ (r' = r \/ snd r' = merge_fields fields (snd r)).
Proof.
  revert rs'. induction rs as [|[k d] rest IH]; simpl; intros rs' Hupd i r Hi.
  - discriminate.
  - destruct (String.eqb k id).
    + injection Hupd as <-. destruct i as [|i]; simpl in *.
      * injection Hi as <-. eexists. repeat split. right. reflexivity.
      * exists r. repeat split; [assumption | left; reflexivity].
    + destruct (update_by_id id fields rest) as [rest'|] eqn:Hrest;
        [|discriminate].
      simpl in Hupd. injection Hupd as <-. destruct i as [|i]; simpl in *.
      * injection Hi as <-. eexists. repeat split. left. reflexivity.
      * apply (IH rest' eq_refl i r Hi).
Qed.

(** The only change an invocation makes to the responder collection is the
    keyed update with the [en_route] fields. *)
Lemma run_responders F payload w :
  responders (fst (autoDispatch F payload w)) = responders w
  \/ exists rid incidentId,
       update_by_id rid (en_route_fields incidentId) (responders w)
       = Some (responders (fst (autoDispatch F payload w))).
Proof.
  pose proof (autoDispatch_run_path F payload w) as Hrun. unfold ends_in in Hrun.
  destruct (autoDispatch F payload w) as [w' r]. simpl in Hrun |- *.
  inversion Hrun as [ | | | ? ? ? ? Hb | ? ? ? ? ? ? Hb | ? ? ? ? ? Hb
                      | ? ? ? ? ? ? Hb ]; subst; try (left; reflexivity);
    inversion Hb; subst; simpl; try (left; reflexivity);
    right; eauto.
Qed.

(** C9.  Every responder record that satisfies the invariant before an
    invocation is still there, under the same id, and satisfies it after:
    the only write to a responder sets [status] to [en_route] together with
    [currentIncidentId]. *)
Theorem responder_invariant_preserved F payload w (i : nat) (r : string * doc) :
  responders w !! i = Some r ->
  responder_invariant (snd r) ->
  exists r',
    responders (fst (autoDispatch F payload w)) !! i = Some r'
    /\ fst r' = fst r
    /\ responder_invariant (snd r').
Proof.
  intros Hi Hinv.
  destruct (run_responders F payload w) as [-> | (rid & incidentId & Hupd)].
  - exists r. repeat split; assumption.
  - destruct (update_by_id_lookup _ _ _ _ Hupd i r Hi)
      as (r' & Hi' & Hid & [-> | Hmerge]).
    + exists r. repeat split; assumption.
    + exists r'. repeat split; [assumption | assumption |].
      unfold responder_invariant. rewrite Hmerge, field_merge. simpl.
      discriminate.
Qed.

Lemma responder_invariant_preserved_witness :
  exists r',
    responders (fst (autoDispatch no_faults Scenario.payload_I1
                       (Scenario.world_with Scenario.pending_I1
                          [("R1", Scenario.responder_with_token)])))
    !! 0%nat = Some r'
    /\ fst r' = "R1"
    /\ responder_invariant (snd r').
Proof.
  apply (responder_invariant_preserved no_faults Scenario.payload_I1
           (Scenario.world_with Scenario.pending_I1
              [("R1", Scenario.responder_with_token)])
           0%nat ("R1", Scenario.responder_with_token)).
  - reflexivity.
  - intros _. reflexivity.
Defined.

(** ** C10: the selected responder has no token *)

(** C10.  When the query returns a responder without [fcmToken] for an
    incident that is neither [dispatched] nor [resolved] (the read, the
    query and the two updates going through): the promise
    resolves, the incident becomes [dispatched] to that responder, a record
    stored under the responder's id is [en_route] with the incident id, and
    the trace grows by exactly the two writes, so that no notification is
    sent and no failure status is written. *)
Theorem dispatch_without_token F payload w id d rid rd :
  get_incident_fault F = None ->
  query_responders_fault F = None ->
  update_dispatched_fault F = None ->
  update_responder_fault F = None ->
  get_prop payload "incidentId" = Ok (JStr id) ->
  id <> "" ->
  incidents w !! id = Some d ->
  already_handled d = false ->
  List.find is_available (responders w) = Some (rid, rd) ->
  truthy (field rd "fcmToken") = false ->
  exists d' rd',
    snd (autoDispatch F payload w) = Ok tt
    /\ incidents (fst (autoDispatch F payload w)) = <[id := d']> (incidents w)
    /\ field d' "status" = JStr "dispatched"
    /\ field d' "dispatchedTo" = JStr rid
    /\ In (rid, rd') (responders (fst (autoDispatch F payload w)))
    /\ field rd' "status" = JStr "en_route"
    /\ field rd' "currentIncidentId" = JStr id
    /\ trace (fst (autoDispatch F payload w)) =
       trace w ++ [EvIncidentWrite id (dispatched_fields rid);
                   EvResponderWrite rid (en_route_fields (JStr id))].
Proof.
  intros Hget Hq Hd Hr Hp Hid Hinc Hh Hfind Htok.
  destruct (update_by_id_present rid (en_route_fields (JStr id)) (responders w)
              (find_some_in _ _ Hfind)) as (l1 & x & l2 & _ & Hupd).
  assert (Hn : notification_for F (JStr id) d rid rd = Ok []).
  { unfold notification_for. rewrite Htok. reflexivity. }
  rewrite (success_run F payload w id d rid rd [] _ Hp Hid
             (conj Hget (conj Hinc Hh)) (conj Hq Hfind) Hn Hd Hr Hupd).
  exists (merge_fields (dispatched_fields rid) d),
         (merge_fields (en_route_fields (JStr id)) x).
  simpl. repeat split; try (rewrite field_merge; reflexivity).
  - apply List.in_or_app. right. left. reflexivity.
  - rewrite List.app_nil_r, <- List.app_assoc. reflexivity.
Qed.

Lemma dispatch_without_token_witness :
  exists d' rd',
    let w := Scenario.world_with Scenario.pending_I1
               [("R1", Scenario.responder_without_token)] in
    snd (autoDispatch no_faults Scenario.payload_I1 w) = Ok tt
    /\ incidents (fst (autoDispatch no_faults Scenario.payload_I1 w)) =
       <["I1" := d']> (incidents w)
    /\ field d' "status" = JStr "dispatched"
    /\ field d' "dispatchedTo" = JStr "R1"
    /\ In ("R1", rd')
          (responders (fst (autoDispatch no_faults Scenario.payload_I1 w)))
    /\ field rd' "status" = JStr "en_route"
    /\ field rd' "currentIncidentId" = JStr "I1"
    /\ trace (fst (autoDispatch no_faults Scenario.payload_I1 w)) =
       trace w ++ [EvIncidentWrite "I1" (dispatched_fields "R1");
                   EvResponderWrite "R1" (en_route_fields (JStr "I1"))].
Proof.
  apply (dispatch_without_token no_faults Scenario.payload_I1
           (Scenario.world_with Scenario.pending_I1
              [("R1", Scenario.responder_without_token)])
           "I1" Scenario.pending_I1 "R1" Scenario.responder_without_token).
  - reflexivity.
  - reflexivity.
  - reflexivity.
  - reflexivity.
  - reflexivity.
  - discriminate.
  - reflexivity.
  - reflexivity.
  - reflexivity.
  - reflexivity.
Defined.

(** The missing token raises nothing, and the two updates that follow are
    awaited calls of the [try] block like any other: when the incident
    update throws, the incident ends [dispatch_failed] with the error
    recorded and the responder stays [available]. *)
Example tokenless_dispatch_can_fail :
  let F := mkDispatchFaults None None None None
                            (Some Scenario.unavailable) None None in
  let w := Scenario.world_with Scenario.pending_I1
             [("R1", Scenario.responder_without_token)] in
  let w' := fst (autoDispatch F Scenario.payload_I1 w) in
  List.find is_available (responders w)
  = Some ("R1", Scenario.responder_without_token)
  /\ truthy (field Scenario.responder_without_token "fcmToken") = false
  /\ Scenario.status_of w' "I1" = JStr "dispatch_failed"
  /\ field (default ∅ (incidents w' !! "I1")) "dispatchErrorMessage"
     = JStr (err_message Scenario.unavailable)
  /\ List.map (fun r => field (snd r) "status") (responders w')
     = [JStr "available"].
Proof. repeat split; reflexivity. Qed.

(** ** C8: a failure inside the analysis *)

(** The [try] block of [onNewIncident] writes last: when it throws, the
    incident collection is as it was. *)
Lemma onNewIncident_body_throw E incidentId anomalyType w w1 e :
  onNewIncident_body E incidentId anomalyType w = (w1, Throw e) ->
  incidents w1 = incidents w.
Proof.
  unfold onNewIncident_body, bind, lift, http_post, incident_update.
  destruct (fetch_fault E); [intros [= <- _]; reflexivity|]. simpl.
  destruct (response_json E) as [result|]; [|intros [= <- _]; reflexivity].
  destruct (extract_summary E result) as [summary|];
    [|intros [= <- _]; reflexivity].
  destruct (require_substring summary); [|intros [= <- _]; reflexivity].
  destruct (doc_ref incidentId) as [ref|]; [|intros [= <- _]; reflexivity].
  destruct (update_analyzed_fault E); [intros [= <- _]; reflexivity|]. simpl.
  destruct (incidents w !! ref); [discriminate | intros [= <- _]; reflexivity].
Qed.

(** C8, as amended.  When the [try] block of the analysis throws an error
    [e] (the request or the decoding of the response rejects, a property is
    read off [null] or [undefined], the summary is not a string, or the
    update fails) on an existing incident and the update of the [catch]
    block goes through, the promise resolves and the incident ends in status
    [analysis_failed] with the message of [e] recorded. *)
Theorem analysis_failure_recorded E payload w id anomalyType d w1 e :
  get_prop payload "incidentId" = Ok (JStr id) ->
  get_prop payload "anomalyType" = Ok anomalyType ->
  id <> "" ->
  incidents w !! id = Some d ->
  onNewIncident_body E (JStr id) anomalyType w = (w1, Throw e) ->
  update_analysis_failed_fault E = None ->
  snd (onNewIncident E payload w) = Ok tt
  /\ incidents (fst (onNewIncident E payload w)) =
     <[id := merge_fields (analysis_failed_fields e) d]> (incidents w)
  /\ field (merge_fields (analysis_failed_fields e) d) "status"
     = JStr "analysis_failed"
  /\ field (merge_fields (analysis_failed_fields e) d) "errorMessage"
     = JStr (err_message e).
Proof.
  intros Hp Ha Hid Hinc Hbody Hf.
  pose proof (onNewIncident_body_throw _ _ _ _ _ _ Hbody) as Hsame.
  assert (Hrun : onNewIncident E payload w =
                 (write_incident w1 id (analysis_failed_fields e) d, Ok tt)).
  { unfold onNewIncident, bind at 1, lift. rewrite Hp.
    unfold bind at 1. rewrite Ha.
    unfold try_catch. rewrite Hbody.
    unfold onNewIncident_handler, bind, lift. rewrite (doc_ref_string id Hid).
    unfold incident_update. rewrite Hf, Hsame, Hinc. unfold write_incident.
    rewrite Hsame. reflexivity. }
  rewrite Hrun. simpl. rewrite Hsame.
  repeat split; rewrite field_merge; reflexivity.
Qed.

(** The request fails on the network: the incident ends
    [analysis_failed]. *)
Lemma analysis_failure_recorded_witness :
  let E := Analysis.env (Some Analysis.offline) (Ok JNull) None in
  snd (onNewIncident E Analysis.payload_I1 Analysis.world) = Ok tt
  /\ incidents (fst (onNewIncident E Analysis.payload_I1 Analysis.world)) =
     <["I1" := merge_fields (analysis_failed_fields Analysis.offline)
                 Scenario.pending_I1]> (incidents Analysis.world)
  /\ field (merge_fields (analysis_failed_fields Analysis.offline)
              Scenario.pending_I1) "status" = JStr "analysis_failed"
  /\ field (merge_fields (analysis_failed_fields Analysis.offline)
              Scenario.pending_I1) "errorMessage"
     = JStr (err_message Analysis.offline).
Proof.
  apply (analysis_failure_recorded
           (Analysis.env (Some Analysis.offline) (Ok JNull) None)
           Analysis.payload_I1 Analysis.world "I1" (JStr "crowd_surge")
           Scenario.pending_I1 Analysis.world Analysis.offline).
  - reflexivity.
  - reflexivity.
  - discriminate.
  - reflexivity.
  - reflexivity.
  - reflexivity.
Defined.

(** C8 as stated fails: the request fails on the network and the update of
    the [catch] block throws as well; the promise rejects and the incident
    keeps the status it had, with no error message recorded. *)
Lemma analysis_failure_not_recorded_when_handler_fails :
  let E := Analysis.env (Some Analysis.offline) (Ok JNull)
             (Some Scenario.unavailable) in
  let w' := fst (onNewIncident E Analysis.payload_I1 Analysis.world) in
  onNewIncident_body E (JStr "I1") (JStr "crowd_surge") Analysis.world
  = (Analysis.world, Throw Analysis.offline)
  /\ snd (onNewIncident E Analysis.payload_I1 Analysis.world)
     = Throw Scenario.unavailable
  /\ Scenario.status_of w' "I1" = JStr "pending"
  /\ field (default ∅ (incidents w' !! "I1")) "errorMessage" = JUndefined.
Proof. repeat split; reflexivity. Qed.

(** The expected response: the incident ends [analyzed] with the text of
    the first part as summary and the elapsed time. *)
Example analysis_of_well_formed_response :
  let E := Analysis.env None (Ok Analysis.well_formed) None in
  let w' := fst (onNewIncident E Analysis.payload_I1 Analysis.world) in
  let d' := default ∅ (incidents w' !! "I1") in
  field d' "status" = JStr "analyzed"
  /\ field d' "geminiSummary" = JStr "Crowd is dense."
  /\ field d' "processingTimeMs" = JNum 2250
  /\ trace w' = [EvHttpPost apiUrl;
                 EvIncidentWrite "I1"
                   (analyzed_fields E (JStr "crowd_surge") "Crowd is dense.")].
Proof. repeat split; reflexivity. Qed.

(** A response that decodes but lacks [candidates] raises nothing: the
    incident ends [analyzed], with the fallback summary. *)
Example analysis_of_unexpected_response :
  let E := Analysis.env None (Ok Analysis.api_error) None in
  let w' := fst (onNewIncident E Analysis.payload_I1 Analysis.world) in
  let d' := default ∅ (incidents w' !! "I1") in
  snd (onNewIncident E Analysis.payload_I1 Analysis.world) = Ok tt
  /\ field d' "status" = JStr "analyzed"
  /\ field d' "geminiSummary" = JStr inconclusive
  /\ field d' "errorMessage" = JUndefined.
Proof. repeat split; reflexivity. Qed.

(** A body that decodes to [null], and a first part without [text], both
    throw a [TypeError] that the [catch] block records. *)
Example analysis_of_null_response :
  let E := Analysis.env None (Ok JNull) None in
  let w' := fst (onNewIncident E Analysis.payload_I1 Analysis.world) in
  let d' := default ∅ (incidents w' !! "I1") in
  field d' "status" = JStr "analysis_failed"
  /\ field d' "errorMessage"
     = JStr "Cannot read properties of null (reading 'candidates')".
Proof. split; reflexivity. Qed.

Example analysis_of_part_without_text :
  let body := JObj [("candidates",
                     JArr [JObj [("content",
                                  JObj [("parts", JArr [JObj []])])]])] in
  let E := Analysis.env None (Ok body) None in
  let w' := fst (onNewIncident E Analysis.payload_I1 Analysis.world) in
  let d' := default ∅ (incidents w' !! "I1") in
  field d' "status" = JStr "analysis_failed"
  /\ field d' "errorMessage"
     = JStr "Cannot read properties of undefined (reading 'substring')".
Proof. split; reflexivity. Qed.

(** * Further properties of [autoDispatch] *)

(** ** The paths that write nothing *)

(** A payload without a usable [incidentId], or one whose [incidentId] is
    a document id (no [/] in it) that names an incident the store does not
    hold, leaves both collections and the trace as they were; the promise
    resolves. *)
Theorem nothing_to_dispatch F payload w v :
  get_prop payload "incidentId" = Ok v ->
  truthy v = false
  \/ (exists id, v = JStr id
                 /\ contains_slash id = false
                 /\ get_incident_fault F = None
                 /\ incidents w !! id = None) ->
  autoDispatch F payload w = (w, Ok tt).
Proof.
  intros Hp Hcase. unfold autoDispatch, bind at 1, lift. rewrite Hp.
  destruct (truthy v) eqn:Hv; simpl; [|reflexivity].
  destruct Hcase as [Hf | (id & -> & _ & Hget & Hinc)]; [discriminate|].
  assert (Hid : id <> "") by (intros ->; discriminate Hv).
  unfold try_catch, autoDispatch_body, bind at 1, lift.
  rewrite (doc_ref_string id Hid).
  unfold bind at 1, incident_get. rewrite Hget, Hinc. reflexivity.
Qed.

Lemma nothing_to_dispatch_witness :
  autoDispatch no_faults (JObj [("incidentId", JStr "I2")])
    (Scenario.world_with Scenario.pending_I1
       [("R1", Scenario.responder_with_token)])
  = (Scenario.world_with Scenario.pending_I1
       [("R1", Scenario.responder_with_token)],
     Ok tt).
Proof.
  apply (nothing_to_dispatch no_faults (JObj [("incidentId", JStr "I2")])
           _ (JStr "I2")).
  - reflexivity.
  - right. exists "I2". repeat split; reflexivity.
Defined.

(** ** What an invocation leaves alone *)

Lemma body_path_other_incidents F id w w1 r id' :
  body_path F id w w1 r ->
  id' <> id ->
  incidents w1 !! id' = incidents w !! id'.
Proof.
  intros Hb Hne.
  inversion Hb; subst; simpl; try reflexivity;
    apply lookup_insert_ne; congruence.
Qed.

(** Whatever the faults, an invocation whose payload names an incident by
    its document id (no [/] in it) reads and writes that incident and no
    other: every other document of the collection is the same before and
    after. *)
Theorem other_incidents_untouched F payload w id' :
  payload_id_plain payload = true ->
  get_prop payload "incidentId" <> Ok (JStr id') ->
  incidents (fst (autoDispatch F payload w)) !! id' = incidents w !! id'.
Proof.
  intros _ Hother.
  pose proof (autoDispatch_run_path F payload w) as Hrun. unfold ends_in in Hrun.
  destruct (autoDispatch F payload w) as [w' r]. simpl in Hrun |- *.
  assert (Hne : forall id, get_prop payload "incidentId" = Ok (JStr id) ->
                           id' <> id) by (intros id Hp ->; contradiction).
  inversion Hrun as [ | | | id ? Hp Hid Hb | id ? ? ? Hp Hid Hb Hf
                      | id ? ? Hp Hid Hb Hf Hnone | id w1 e d1 Hp Hid Hb Hf Hd1 ];
    subst; try reflexivity;
    try solve [eapply body_path_other_incidents; eauto].
  simpl. rewrite lookup_insert_ne by (intros ->; exact (Hne _ Hp eq_refl)).
  eapply body_path_other_incidents; eauto.
Qed.

Lemma other_incidents_untouched_witness :
  incidents (fst (autoDispatch no_faults Scenario.payload_I1
                    (mkWorld {["I1" := Scenario.pending_I1;
                               "I2" := Scenario.incident_with_status "resolved"]}
                             [("R1", Scenario.responder_with_token)] [])))
  !! "I2"
  = incidents (mkWorld {["I1" := Scenario.pending_I1;
                         "I2" := Scenario.incident_with_status "resolved"]}
                       [("R1", Scenario.responder_with_token)] [])
    !! "I2".
Proof.
  apply (other_incidents_untouched no_faults Scenario.payload_I1 _ "I2").
  - reflexivity.
  - discriminate.
Defined.

Lemma body_path_dom F id w w1 r :
  body_path F id w w1 r -> dom (incidents w1) = dom (incidents w).
Proof.
  intros Hb.
  inversion Hb; subst; simpl; try reflexivity;
    match goal with
    | H : open_incident _ _ _ _ |- _ => destruct H as (_ & Hinc & _)
    end;
    apply dom_insert_lookup_L; rewrite Hinc; eauto.
Qed.

(** An invocation never creates and never deletes an incident document: the
    set of incident ids is the same before and after, whatever the payload
    and the faults. *)
Theorem incident_ids_preserved F payload w :
  dom (incidents (fst (autoDispatch F payload w))) = dom (incidents w).
Proof.
  pose proof (autoDispatch_run_path F payload w) as Hrun. unfold ends_in in Hrun.
  destruct (autoDispatch F payload w) as [w' r]. simpl in Hrun |- *.
  inversion Hrun as [ | | | id ? Hp Hid Hb | id ? ? ? Hp Hid Hb Hf
                      | id ? ? Hp Hid Hb Hf Hnone | id w1 e d1 Hp Hid Hb Hf Hd1 ];
    subst; try reflexivity;
    try solve [eapply body_path_dom; eassumption].
  simpl. rewrite dom_insert_lookup_L by (rewrite Hd1; eauto).
  eapply body_path_dom; eassumption.
Qed.

Lemma update_by_id_ids id fields (rs rs' : list (string * doc)) :
  update_by_id id fields rs = Some rs' ->
  List.map fst rs' = List.map fst rs.
Proof.
  revert rs'. induction rs as [|[k d] rest IH]; simpl; intros rs' Hupd.
  - discriminate.
  - destruct (String.eqb k id).
    + injection Hupd as <-. reflexivity.
    + destruct (update_by_id id fields rest) as [rest'|]; [|discriminate].
      simpl in Hupd. injection Hupd as <-. simpl. rewrite (IH rest' eq_refl).
      reflexivity.
Qed.

(** An invocation never adds, removes or reorders responder documents. *)
Theorem responder_ids_preserved F payload w :
  List.map fst (responders (fst (autoDispatch F payload w)))
  = List.map fst (responders w).
Proof.
  destruct (run_responders F payload w) as [-> | (rid & incidentId & Hupd)].
  - reflexivity.
  - exact (update_by_id_ids _ _ _ _ Hupd).
Qed.

(** The only responder an invocation can touch is the one its query
    returned. *)
Lemma run_responders_found F payload w :
  responders (fst (autoDispatch F payload w)) = responders w
  \/ exists rid rd incidentId,
       List.find is_available (responders w) = Some (rid, rd)
       /\ update_by_id rid (en_route_fields incidentId) (responders w)
          = Some (responders (fst (autoDispatch F payload w))).
Proof.
  pose proof (autoDispatch_run_path F payload w) as Hrun. unfold ends_in in Hrun.
  destruct (autoDispatch F payload w) as [w' r]. simpl in Hrun |- *.
  inversion Hrun as [ | | | ? ? ? ? Hb | ? ? ? ? ? ? Hb | ? ? ? ? ? Hb
                      | ? ? ? ? ? ? Hb ]; subst; try (left; reflexivity);
    inversion Hb; subst; simpl; try (left; reflexivity);
    match goal with
    | H : selected _ _ _ _ |- _ => destruct H as [_ Hfind]
    end;
    right; eauto 6.
Qed.

Lemma lookup_middle_other {A} (l1 l2 : list A) (x y r : A) (i : nat) :
  (l1 ++ x :: l2) !! i = Some r ->
  r <> x ->
  (l1 ++ y :: l2) !! i = Some r.
Proof.
  revert i. induction l1 as [|a l1 IH]; intros [|i]; simpl; intros Hi Hne.
  - congruence.
  - exact Hi.
  - exact Hi.
  - apply IH; assumption.
Qed.

(** Document ids being distinct, a responder that is not [available]
    ([en_route], [busy], [offline], or without status) is the same record
    before and after an invocation, whatever the faults. *)
Theorem unavailable_responder_untouched F payload w (i : nat) (r : string * doc) :
  List.NoDup (List.map fst (responders w)) ->
  responders w !! i = Some r ->
  is_available r = false ->
  responders (fst (autoDispatch F payload w)) !! i = Some r.
Proof.
  intros Hnodup Hi Hr.
  destruct (run_responders_found F payload w)
    as [-> | (rid & rd & incidentId & Hfind & Hupd)]; [assumption|].
  destruct (proj1 (find_some_split _ _) Hfind) as (l1 & l2 & Hrs & Hl1 & Hav).
  assert (Hnotin : ~ In rid (List.map fst l1)).
  { rewrite Hrs, List.map_app in Hnodup. simpl in Hnodup.
    apply List.NoDup_remove_2 in Hnodup. intros Hin. apply Hnodup.
    apply List.in_or_app. left. exact Hin. }
  rewrite Hrs, (update_by_id_split rid _ l1 l2 rd Hnotin) in Hupd.
  injection Hupd as <-. rewrite Hrs in Hi.
  apply (lookup_middle_other _ _ _ _ _ _ Hi). intros ->. congruence.
Qed.

Lemma unavailable_responder_untouched_witness :
  responders
    (fst (autoDispatch no_faults Scenario.payload_I1
            (Scenario.world_with Scenario.pending_I1
               [("R0", Scenario.responder_busy);
                ("R1", Scenario.responder_with_token)])))
  !! 0%nat
  = Some ("R0", Scenario.responder_busy).
Proof.
  apply (unavailable_responder_untouched no_faults Scenario.payload_I1
           (Scenario.world_with Scenario.pending_I1
              [("R0", Scenario.responder_busy);
               ("R1", Scenario.responder_with_token)])
           0%nat ("R0", Scenario.responder_busy)).
  - simpl. apply List.NoDup_cons; [simpl; intros [H | []]; discriminate H|].
    apply List.NoDup_cons; [intros [] | apply List.NoDup_nil].
  - reflexivity.
  - reflexivity.
Defined.

Lemma assoc_opt_notin (k : string) (fields : list (string * jsval)) :
  ~ In k (List.map fst fields) -> assoc_opt k fields = None.
Proof.
  induction fields as [|[k' v] rest IH]; simpl; intros Hnotin; [reflexivity|].
  destruct (String.eqb_spec k' k) as [->|Hne]; [tauto|]. apply IH. tauto.
Qed.

Lemma field_merge_other (fields : list (string * jsval)) (d : doc) (k : string) :
  ~ In k (List.map fst fields) -> field (merge_fields fields d) k = field d k.
Proof.
  intros Hnotin. rewrite field_merge, (assoc_opt_notin k fields Hnotin).
  reflexivity.
Qed.

Lemma written_names_cover (k : string) (e : JsError) (rid : string) :
  ~ In k dispatch_written_names ->
  ~ In k (List.map fst pending_fields)
  /\ ~ In k (List.map fst (dispatched_fields rid))
  /\ ~ In k (List.map fst (failed_fields e)).
Proof. unfold dispatch_written_names. simpl. intuition. Qed.

Lemma body_path_fields F id0 w w1 r id d d1 k :
  body_path F id0 w w1 r ->
  incidents w !! id = Some d ->
  incidents w1 !! id = Some d1 ->
  ~ In k dispatch_written_names ->
  field d1 k = field d k.
Proof.
  intros Hb Hd Hd1 Hk.
  destruct (written_names_cover k (mkError "" "") "" Hk) as (Hpend & _).
  inversion Hb as [ | | | | | d0 [_ [Hinc _]] | | | d0 rid ? ? ? [_ [Hinc _]]
                    | d0 rid ? ? ? [_ [Hinc _]] ];
    subst; simpl in Hd1; try congruence;
    try destruct (written_names_cover k (mkError "" "") rid Hk) as (_ & Hdisp & _);
    rewrite lookup_insert in Hd1; case_decide; subst;
    try congruence;
    injection Hd1 as <-; rewrite field_merge_other by assumption; congruence.
Qed.

(** Whatever the faults, an invocation leaves every incident field it does
    not own as it was: [anomalyType], [location], [videoUrl], the results of
    the analysis, and any other field outside the seven names it writes. *)
Theorem foreign_incident_fields_kept F payload w id d d' k :
  incidents w !! id = Some d ->
  incidents (fst (autoDispatch F payload w)) !! id = Some d' ->
  ~ In k dispatch_written_names ->
  field d' k = field d k.
Proof.
  pose proof (autoDispatch_run_path F payload w) as Hrun. unfold ends_in in Hrun.
  destruct (autoDispatch F payload w) as [w' r]. simpl in Hrun |- *.
  intros Hd Hd' Hk.
  inversion Hrun as [ | | | id0 ? Hp Hid Hb | id0 ? ? ? Hp Hid Hb Hf
                      | id0 ? ? Hp Hid Hb Hf Hnone
                      | id0 w1 e d1 Hp Hid Hb Hf Hd1 ];
    subst; try congruence;
    try solve [eapply body_path_fields; eassumption].
  destruct (written_names_cover k e "" Hk) as (_ & _ & Hfail).
  simpl in Hd'. rewrite lookup_insert in Hd'. case_decide; subst.
  - injection Hd' as <-. rewrite field_merge_other by assumption.
    eapply body_path_fields; eassumption.
  - eapply body_path_fields; eassumption.
Qed.

Lemma foreign_incident_fields_kept_witness :
  field (default ∅
           (incidents
              (fst (autoDispatch no_faults Scenario.payload_I1
                      (Scenario.world_with Scenario.pending_I1
                         [("R1", Scenario.responder_with_token)])))
            !! "I1"))
        "videoUrl"
  = field Scenario.pending_I1 "videoUrl".
Proof.
  apply (foreign_incident_fields_kept no_faults Scenario.payload_I1
           (Scenario.world_with Scenario.pending_I1
              [("R1", Scenario.responder_with_token)])
           "I1" Scenario.pending_I1).
  - reflexivity.
  - reflexivity.
  - unfold dispatch_written_names. simpl.
    intros [H | [H | [H | [H | [H | [H | [H | []]]]]]]]; discriminate H.
Defined.

(** ** What an invocation writes *)






(** ** When the promise resolves *)

(** Errors are contained: for a payload whose [incidentId] is a string
    without [/], the promise resolves whenever the update of the [catch]
    block is not made to fail and the incident exists or its read goes
    through, whatever else throws. *)
Theorem promise_resolves F payload w id :
  get_prop payload "incidentId" = Ok (JStr id) ->
  contains_slash id = false ->
  update_failed_fault F = None ->
  is_Some (incidents w !! id) \/ get_incident_fault F = None ->
  snd (autoDispatch F payload w) = Ok tt.
Proof.
  intros Hp _ Hf Hcase.
  pose proof (autoDispatch_run_path F payload w) as Hrun. unfold ends_in in Hrun.
  destruct (autoDispatch F payload w) as [w' r]. simpl in Hrun |- *.
  inversion Hrun as [ ? Hp' | | ? ? Hp' Hv Href | | id0 ? ? ? Hp' Hid Hb Hf'
                      | id0 ? ? Hp' Hid Hb Hf' Hnone | ];
    subst; try reflexivity; try congruence.
  - rewrite Hp in Hp'. injection Hp' as <-. simpl in Hv, Href.
    destruct (String.eqb id ""); discriminate.
  - rewrite Hp in Hp'. injection Hp' as <-.
    destruct Hcase as [[d Hd] | Hget].
    + destruct (body_path_keeps_incident _ _ _ _ _ _ Hb Hd) as [d1 Hd1].
      congruence.
    + inversion Hb; subst; try congruence;
        match goal with
        | H : open_incident _ _ _ _ |- _ =>
            destruct H as (_ & Hinc & _); simpl in Hnone;
            try rewrite lookup_insert_eq in Hnone; congruence
        end.
Qed.

Lemma promise_resolves_witness :
  snd (autoDispatch
         (mkDispatchFaults None (Some Scenario.unavailable) None None None
                           None None)
         Scenario.payload_I1
         (Scenario.world_with Scenario.pending_I1
            [("R1", Scenario.responder_with_token)]))
  = Ok tt.
Proof.
  apply (promise_resolves _ Scenario.payload_I1 _ "I1").
  - reflexivity.
  - reflexivity.
  - reflexivity.
  - left. simpl. eauto.
Defined.

(** ** Failures around the notification *)

(** The [try] block once the incident is open and the query has returned a
    responder: notification, incident update, responder update. *)
Lemma body_after_selection F id w d rid rd :
  id <> "" ->
  open_incident F w id d ->
  selected F w rid rd ->
  autoDispatch_body F (JStr id) w =
  match notification_for F (JStr id) d rid rd with
  | Throw e => (w, Throw e)
  | Ok evs =>
      match update_dispatched_fault F with
      | Some e => (add_events w evs, Throw e)
      | None =>
          match update_responder_fault F with
          | Some e =>
              (write_incident (add_events w evs) id (dispatched_fields rid) d,
               Throw e)
          | None =>
              match update_by_id rid (en_route_fields (JStr id)) (responders w) with
              | Some rs' =>
                  (write_responder
                     (write_incident (add_events w evs) id
                                     (dispatched_fields rid) d)
                     rid (en_route_fields (JStr id)) rs',
                   Ok tt)
              | None =>
                  (write_incident (add_events w evs) id (dispatched_fields rid) d,
                   Throw (not_found rid))
              end
          end
      end
  end.
Proof.
  intros Hid (Hget & Hinc & Hh) (Hq & Hfind).
  unfold autoDispatch_body, bind at 1, lift.
  rewrite (doc_ref_string id Hid).
  unfold bind at 1, incident_get. rewrite Hget, Hinc, Hh.
  unfold bind at 1, responders_query_available.
  rewrite Hq, query_limit_1, Hfind.
  unfold bind at 1. rewrite notify_responder_run.
  destruct (notification_for F (JStr id) d rid rd) as [evs|e]; [|reflexivity].
  unfold bind at 1, incident_update. simpl. rewrite Hinc.
  destruct (update_dispatched_fault F); [reflexivity|]. simpl.
  unfold responder_update. simpl.
  destruct (update_responder_fault F); [reflexivity|].
  destruct (update_by_id rid (en_route_fields (JStr id)) (responders w));
    reflexivity.
Qed.

(** A notification is not taken back.  When the message has gone out and
    the update that marks the incident [dispatched] then throws, the
    responder has been told to proceed while the store says otherwise: the
    incident ends [dispatch_failed] without [dispatchedTo] being written,
    and the responder record is unchanged. *)
Theorem notification_not_rolled_back F payload w id d rid rd e :
  get_prop payload "incidentId" = Ok (JStr id) ->
  id <> "" ->
  open_incident F w id d ->
  selected F w rid rd ->
  truthy (field rd "fcmToken") = true ->
  has_location d = true ->
  send_fault F = None ->
  update_dispatched_fault F = Some e ->
  update_failed_fault F = None ->
  exists msg d',
    snd (autoDispatch F payload w) = Ok tt
    /\ trace (fst (autoDispatch F payload w)) =
       trace w ++ [EvNotify msg; EvIncidentWrite id (failed_fields e)]
    /\ fcm_token msg = field rd "fcmToken"
    /\ responders (fst (autoDispatch F payload w)) = responders w
    /\ incidents (fst (autoDispatch F payload w)) !! id = Some d'
    /\ field d' "status" = JStr "dispatch_failed"
    /\ field d' "dispatchedTo" = field d "dispatchedTo".
Proof.
  intros Hp Hid Hopen Hsel Htok Hloc Hs Hd Hf.
  destruct (dispatch_message_ok (JStr id) d rid rd Hloc) as (msg & Hmsg & Hto & _).
  assert (Hn : notification_for F (JStr id) d rid rd = Ok [EvNotify msg]).
  { unfold notification_for. rewrite Htok, Hmsg. simpl. rewrite Hs. reflexivity. }
  pose proof (body_after_selection F id w d rid rd Hid Hopen Hsel) as Hbody.
  rewrite Hn, Hd in Hbody.
  destruct Hopen as (_ & Hinc & _).
  rewrite (failure_run F payload w id _ e d Hp Hid Hbody Hf Hinc).
  exists msg, (merge_fields (failed_fields e) d). simpl.
  repeat split; try assumption; try (rewrite field_merge; reflexivity).
  - rewrite <- List.app_assoc. reflexivity.
  - apply lookup_insert_eq.
Qed.

Lemma notification_not_rolled_back_witness :
  exists msg d',
    let F := mkDispatchFaults None None None None
                              (Some Scenario.unavailable) None None in
    let w := Scenario.world_with Scenario.pending_I1
               [("R1", Scenario.responder_with_token)] in
    snd (autoDispatch F Scenario.payload_I1 w) = Ok tt
    /\ trace (fst (autoDispatch F Scenario.payload_I1 w)) =
       trace w ++ [EvNotify msg;
                   EvIncidentWrite "I1" (failed_fields Scenario.unavailable)]
    /\ fcm_token msg = field Scenario.responder_with_token "fcmToken"
    /\ responders (fst (autoDispatch F Scenario.payload_I1 w)) = responders w
    /\ incidents (fst (autoDispatch F Scenario.payload_I1 w)) !! "I1" = Some d'
    /\ field d' "status" = JStr "dispatch_failed"
    /\ field d' "dispatchedTo" = field Scenario.pending_I1 "dispatchedTo".
Proof.
  apply (notification_not_rolled_back
           (mkDispatchFaults None None None None
                             (Some Scenario.unavailable) None None)
           Scenario.payload_I1
           (Scenario.world_with Scenario.pending_I1
              [("R1", Scenario.responder_with_token)])
           "I1" Scenario.pending_I1 "R1" Scenario.responder_with_token
           Scenario.unavailable).
  - reflexivity.
  - discriminate.
  - repeat split; reflexivity.
  - split; reflexivity.
  - reflexivity.
  - reflexivity.
  - reflexivity.
  - reflexivity.
  - reflexivity.
Defined.

(** An incident without [location] cannot be announced: when the selected
    responder has a token, building the message throws a [TypeError] before
    anything is sent or written, and the [catch] block records it as
    [dispatch_failed]; the responder is left [available]. *)
Theorem missing_location_fails_dispatch F payload w id d rid rd :
  get_prop payload "incidentId" = Ok (JStr id) ->
  id <> "" ->
  open_incident F w id d ->
  selected F w rid rd ->
  truthy (field rd "fcmToken") = true ->
  has_location d = false ->
  update_failed_fault F = None ->
  exists e d',
    err_name e = "TypeError"
    /\ snd (autoDispatch F payload w) = Ok tt
    /\ trace (fst (autoDispatch F payload w)) =
       trace w ++ [EvIncidentWrite id (failed_fields e)]
    /\ responders (fst (autoDispatch F payload w)) = responders w
    /\ incidents (fst (autoDispatch F payload w)) !! id = Some d'
    /\ field d' "status" = JStr "dispatch_failed"
    /\ field d' "dispatchErrorMessage" = JStr (err_message e).
Proof.
  intros Hp Hid Hopen Hsel Htok Hloc Hf.
  assert (Hn : exists e, err_name e = "TypeError"
                         /\ notification_for F (JStr id) d rid rd = Throw e).
  { unfold notification_for, dispatch_message, has_location in *. rewrite Htok.
    revert Hloc. destruct (field d "location"); intros Hloc;
      try discriminate; simpl; eexists; (split; [|reflexivity]); reflexivity. }
  destruct Hn as (e & Hname & Hn).
  pose proof (body_after_selection F id w d rid rd Hid Hopen Hsel) as Hbody.
  rewrite Hn in Hbody.
  destruct Hopen as (_ & Hinc & _).
  rewrite (failure_run F payload w id _ e d Hp Hid Hbody Hf Hinc).
  exists e, (merge_fields (failed_fields e) d). simpl.
  repeat split; try assumption; try (rewrite field_merge; reflexivity).
  apply lookup_insert_eq.
Qed.

Lemma missing_location_fails_dispatch_witness :
  exists e d',
    let w := Scenario.world_with (list_to_map [("status", JStr "pending")])
               [("R1", Scenario.responder_with_token)] in
    err_name e = "TypeError"
    /\ snd (autoDispatch no_faults Scenario.payload_I1 w) = Ok tt
    /\ trace (fst (autoDispatch no_faults Scenario.payload_I1 w)) =
       trace w ++ [EvIncidentWrite "I1" (failed_fields e)]
    /\ responders (fst (autoDispatch no_faults Scenario.payload_I1 w))
       = responders w
    /\ incidents (fst (autoDispatch no_faults Scenario.payload_I1 w)) !! "I1"
       = Some d'
    /\ field d' "status" = JStr "dispatch_failed"
    /\ field d' "dispatchErrorMessage" = JStr (err_message e).
Proof.
  apply (missing_location_fails_dispatch no_faults Scenario.payload_I1
           (Scenario.world_with (list_to_map [("status", JStr "pending")])
              [("R1", Scenario.responder_with_token)])
           "I1" (list_to_map [("status", JStr "pending")])
           "R1" Scenario.responder_with_token).
  - reflexivity.
  - discriminate.
  - repeat split; reflexivity.
  - split; reflexivity.
  - reflexivity.
  - reflexivity.
  - reflexivity.
Defined.

(** ** Invocations in sequence *)









(** A failed dispatch can be retried, and the retry does not clean up.
    When the gateway refuses the message the incident ends
    [dispatch_failed]; a later invocation without faults passes the guard,
    notifies and dispatches the incident, and the record then reads
    [dispatched] while still carrying the [dispatchErrorMessage] of the
    first attempt. *)
Theorem retry_after_failed_notification payload w id d rid rd e :
  get_prop payload "incidentId" = Ok (JStr id) ->
  id <> "" ->
  incidents w !! id = Some d ->
  already_handled d = false ->
  has_location d = true ->
  List.find is_available (responders w) = Some (rid, rd) ->
  truthy (field rd "fcmToken") = true ->
  exists d1 d2 msg,
    let F1 := mkDispatchFaults None None None (Some e) None None None in
    let w1 := fst (autoDispatch F1 payload w) in
    let w2 := fst (autoDispatch no_faults payload w1) in
    incidents w1 !! id = Some d1
    /\ field d1 "status" = JStr "dispatch_failed"
    /\ responders w1 = responders w
    /\ snd (autoDispatch no_faults payload w1) = Ok tt
    /\ incidents w2 !! id = Some d2
    /\ field d2 "status" = JStr "dispatched"
    /\ field d2 "dispatchedTo" = JStr rid
    /\ field d2 "dispatchErrorMessage" = JStr (err_message e)
    /\ trace w2 = trace w ++ [EvIncidentWrite id (failed_fields e);
                              EvNotify msg;
                              EvIncidentWrite id (dispatched_fields rid);
                              EvResponderWrite rid (en_route_fields (JStr id))].
Proof.
  intros Hp Hid Hinc Hh Hloc Hfind Htok.
  set (F1 := mkDispatchFaults None None None (Some e) None None None).
  set (d1 := merge_fields (failed_fields e) d).
  assert (Hn1 : notification_for F1 (JStr id) d rid rd = Throw e).
  { unfold notification_for. rewrite Htok.
    destruct (dispatch_message_ok (JStr id) d rid rd Hloc) as (msg & -> & _).
    reflexivity. }
  pose proof (body_after_selection F1 id w d rid rd Hid
                (conj eq_refl (conj Hinc Hh)) (conj eq_refl Hfind)) as Hbody.
  rewrite Hn1 in Hbody.
  pose proof (failure_run F1 payload w id w e d Hp Hid Hbody eq_refl Hinc)
    as Hrun1.
  assert (Hinc1 : incidents (write_incident w id (failed_fields e) d) !! id
                  = Some d1) by apply lookup_insert_eq.
  assert (Hh1 : already_handled d1 = false).
  { unfold already_handled, d1. rewrite field_merge. reflexivity. }
  assert (Hloc1 : has_location d1 = true).
  { unfold has_location, d1 in *. rewrite field_merge. exact Hloc. }
  destruct (dispatch_message_ok (JStr id) d1 rid rd Hloc1) as (msg & Hmsg & _).
  assert (Hn2 : notification_for no_faults (JStr id) d1 rid rd
                = Ok [EvNotify msg]).
  { unfold notification_for. rewrite Htok, Hmsg. reflexivity. }
  destruct (update_by_id_present rid (en_route_fields (JStr id)) (responders w)
              (find_some_in _ _ Hfind)) as (l1 & x & l2 & _ & Hupd).
  pose proof (success_run no_faults payload
                (write_incident w id (failed_fields e) d) id d1 rid rd
                [EvNotify msg] _ Hp Hid
                (conj eq_refl (conj Hinc1 Hh1)) (conj eq_refl Hfind) Hn2
                eq_refl eq_refl Hupd) as Hrun2.
  exists d1, (merge_fields (dispatched_fields rid) d1), msg.
  cbv zeta. rewrite Hrun1. simpl fst. rewrite Hrun2. simpl. subst d1.
  repeat split;
    try apply lookup_insert_eq;
    try (rewrite field_merge; simpl; rewrite ?field_merge; reflexivity).
  rewrite <- !List.app_assoc. reflexivity.
Qed.

Lemma retry_after_failed_notification_witness :
  exists d1 d2 msg,
    let w := Scenario.world_with Scenario.pending_I1
               [("R1", Scenario.responder_with_token)] in
    let F1 := mkDispatchFaults None None None (Some Scenario.unavailable)
                               None None None in
    let w1 := fst (autoDispatch F1 Scenario.payload_I1 w) in
    let w2 := fst (autoDispatch no_faults Scenario.payload_I1 w1) in
    incidents w1 !! "I1" = Some d1
    /\ field d1 "status" = JStr "dispatch_failed"
    /\ responders w1 = responders w
    /\ snd (autoDispatch no_faults Scenario.payload_I1 w1) = Ok tt
    /\ incidents w2 !! "I1" = Some d2
    /\ field d2 "status" = JStr "dispatched"
    /\ field d2 "dispatchedTo" = JStr "R1"
    /\ field d2 "dispatchErrorMessage"
       = JStr (err_message Scenario.unavailable)
    /\ trace w2 =
       trace w ++ [EvIncidentWrite "I1" (failed_fields Scenario.unavailable);
                   EvNotify msg;
                   EvIncidentWrite "I1" (dispatched_fields "R1");
                   EvResponderWrite "R1" (en_route_fields (JStr "I1"))].
Proof.
  apply (retry_after_failed_notification Scenario.payload_I1
           (Scenario.world_with Scenario.pending_I1
              [("R1", Scenario.responder_with_token)])
           "I1" Scenario.pending_I1 "R1" Scenario.responder_with_token
           Scenario.unavailable).
  - reflexivity.
  - discriminate.
  - reflexivity.
  - reflexivity.
  - reflexivity.
  - reflexivity.
  - reflexivity.
Defined.

(** * Further properties of [onNewIncident] *)

(** ** The paths of one invocation *)

(** A payload that yields one property yields them all. *)
Lemma get_prop_total (v : jsval) (k k' : string) (x : jsval) :
  get_prop v k = Ok x -> exists y, get_prop v k' = Ok y.
Proof.
  destruct v; simpl; try discriminate; intros _; eauto;
    destruct (String.eqb k' "length"); eauto.
Qed.

Lemma onNewIncident_body_run E incidentId anomalyType w :
  onNewIncident_body E incidentId anomalyType w =
  match fetch_fault E with
  | Some e => (w, Throw e)
  | None =>
      match analysis_plan E incidentId anomalyType with
      | Throw e => (add_events w [EvHttpPost apiUrl], Throw e)
      | Ok (ref, fields) =>
          incident_update (update_analyzed_fault E) ref fields
                          (add_events w [EvHttpPost apiUrl])
      end
  end.
Proof.
  unfold onNewIncident_body, analysis_plan, bind, lift, http_post.
  destruct (fetch_fault E); [reflexivity|]. simpl.
  destruct (response_json E) as [result|]; [|reflexivity]. simpl.
  destruct (extract_summary E result) as [summary|]; [|reflexivity]. simpl.
  destruct (require_substring summary); [|reflexivity]. simpl.
  destruct (doc_ref incidentId); reflexivity.
Qed.

Lemma analysis_plan_ref E incidentId anomalyType ref fields :
  analysis_plan E incidentId anomalyType = Ok (ref, fields) ->
  incidentId = JStr ref /\ ref <> "".
Proof.
  unfold analysis_plan.
  destruct (response_json E) as [result|]; [|discriminate]. simpl.
  destruct (extract_summary E result) as [summary|]; [|discriminate]. simpl.
  destruct (require_substring summary); [|discriminate]. simpl.
  destruct (doc_ref_cases incidentId) as [(id & -> & Hid & Href) | (e & Href)];
    rewrite Href; simpl; [|discriminate].
  intros [= <- _]. split; [reflexivity | assumption].
Qed.

(** What the [try] block of the analysis does: it goes through with one
    write, or throws having written nothing. *)
Lemma onNewIncident_body_cases E incidentId anomalyType w :
  (exists id fields d,
      incidentId = JStr id /\ id <> ""
      /\ fetch_fault E = None
      /\ analysis_plan E incidentId anomalyType = Ok (id, fields)
      /\ update_analyzed_fault E = None
      /\ incidents w !! id = Some d
      /\ onNewIncident_body E incidentId anomalyType w =
         (write_incident (add_events w [EvHttpPost apiUrl]) id fields d, Ok tt))
  \/ (exists evs e,
         analysis_throws E incidentId anomalyType w evs e
         /\ onNewIncident_body E incidentId anomalyType w =
            (add_events w evs, Throw e)).
Proof.
  rewrite onNewIncident_body_run.
  destruct (fetch_fault E) as [e|] eqn:Hfetch.
  { right. exists [], e. rewrite add_events_nil.
    split; [apply ThrowsFetch; assumption | reflexivity]. }
  destruct (analysis_plan E incidentId anomalyType) as [[ref fields]|e] eqn:Hplan.
  2:{ right. exists [EvHttpPost apiUrl], e.
      split; [apply ThrowsPlan; assumption | reflexivity]. }
  destruct (analysis_plan_ref _ _ _ _ _ Hplan) as [-> Hid].
  unfold incident_update. simpl.
  destruct (update_analyzed_fault E) as [e|] eqn:Hupd.
  { right. exists [EvHttpPost apiUrl], e.
    split; [eapply ThrowsUpdateFault; eassumption | reflexivity]. }
  destruct (incidents w !! ref) as [d|] eqn:Hinc.
  - left. exists ref, fields, d. repeat split; assumption.
  - right. exists [EvHttpPost apiUrl], (not_found ref).
    split; [eapply ThrowsNotFound; eassumption | reflexivity].
Qed.

Lemma onNewIncident_path E payload w :
  ends_in (analysis_path E payload w) (onNewIncident E payload w).
Proof.
  unfold onNewIncident, bind at 1, lift.
  destruct (get_prop payload "incidentId") as [incidentId|e] eqn:Hp.
  2:{ apply AnalysisPayloadThrow. assumption. }
  destruct (get_prop_total payload "incidentId" "anomalyType" _ Hp)
    as [anomalyType Ha].
  unfold bind at 1. rewrite Ha. unfold try_catch.
  destruct (onNewIncident_body_cases E incidentId anomalyType w)
    as [(id & fields & d & -> & Hid & Hfetch & Hplan & Hupd & Hinc & ->)
       | (evs & e & Hthrows & ->)].
  - eapply AnalysisAnalyzed; eassumption.
  - unfold onNewIncident_handler, bind, lift.
    destruct (doc_ref_cases incidentId)
      as [(id & -> & Hid & Href) | (e0 & Href)]; rewrite Href.
    + unfold incident_update.
      destruct (update_analysis_failed_fault E) as [e'|] eqn:Hf.
      * eapply AnalysisRejected; eauto 7.
      * simpl. destruct (incidents w !! id) as [d|] eqn:Hinc.
        -- eapply AnalysisFailureRecorded; eassumption.
        -- eapply AnalysisRejected; eauto 7.
    + eapply AnalysisRejected; eauto.
Qed.

Lemma analysis_throws_events E incidentId anomalyType w evs e :
  analysis_throws E incidentId anomalyType w evs e ->
  evs = [] \/ evs = [EvHttpPost apiUrl].
Proof. intros H. inversion H; subst; eauto. Qed.


(** ** What the analysis touches *)

(** Whatever the payload, the response and the faults, one invocation of
    the analysis sends at most one request and writes at most one incident
    document; it never creates or deletes an incident, never writes a
    responder and never sends a notification. *)
Theorem analysis_effects E payload w :
  responders (fst (onNewIncident E payload w)) = responders w
  /\ dom (incidents (fst (onNewIncident E payload w))) = dom (incidents w)
  /\ (count is_http_post (trace (fst (onNewIncident E payload w)))
      <= count is_http_post (trace w) + 1)%nat
  /\ (count is_incident_write (trace (fst (onNewIncident E payload w)))
      <= count is_incident_write (trace w) + 1)%nat
  /\ count is_responder_write (trace (fst (onNewIncident E payload w)))
     = count is_responder_write (trace w)
  /\ count is_notify (trace (fst (onNewIncident E payload w)))
     = count is_notify (trace w).
Proof.
  pose proof (onNewIncident_path E payload w) as Hrun. unfold ends_in in Hrun.
  destruct (onNewIncident E payload w) as [w' r]. simpl in Hrun |- *.
  inversion Hrun as [ | ? ? ? ? ? ? ? ? ? ? Hinc | ? ? evs ? ? ? ? ? Hthrows ? Hinc
                      | ? ? evs ? ? ? ? Hthrows ]; subst; simpl;
    try (destruct (analysis_throws_events _ _ _ _ _ _ Hthrows) as [-> | ->]);
    rewrite ?count_app, ?count_one_incident_write; unfold count; simpl;
    repeat split; try lia;
    apply dom_insert_lookup_L; rewrite Hinc; eauto.
Qed.

(** The analysis of an incident the store does not hold, named by a
    document id (no [/] in it), rejects and leaves the collection as it
    was: no document is created for it. *)
Theorem analysis_of_unknown_incident E payload w id :
  get_prop payload "incidentId" = Ok (JStr id) ->
  contains_slash id = false ->
  incidents w !! id = None ->
  (exists e, snd (onNewIncident E payload w) = Throw e)
  /\ incidents (fst (onNewIncident E payload w)) = incidents w.
Proof.
  intros Hp _ Hnone.
  pose proof (onNewIncident_path E payload w) as Hrun. unfold ends_in in Hrun.
  destruct (onNewIncident E payload w) as [w' r]. simpl in Hrun |- *.
  inversion Hrun as [ ? Hp' | ? ? ? ? Hp' | ? ? ? ? ? Hp' | ];
    subst; simpl; try congruence; eauto.
Qed.

Lemma analysis_of_unknown_incident_witness :
  (exists e,
      snd (onNewIncident (Analysis.env None (Ok Analysis.well_formed) None)
             Analysis.payload_I1 (mkWorld ∅ [] [])) = Throw e)
  /\ incidents
       (fst (onNewIncident (Analysis.env None (Ok Analysis.well_formed) None)
               Analysis.payload_I1 (mkWorld ∅ [] [])))
     = incidents (mkWorld ∅ [] []).
Proof.
  apply (analysis_of_unknown_incident _ Analysis.payload_I1 _ "I1").
  - reflexivity.
  - reflexivity.
  - reflexivity.
Defined.







(** ** Reading the response *)

Lemma js_gt0_length E (n : nat) :
  js_gt0 E (JNum (Z.of_nat (S n))) = Ok true.
Proof. reflexivity. Qed.

(** For a response of the documented shape, the summary is the [text] of
    the first part of the first candidate: further candidates and parts are
    ignored, and the numeric coercion of the environment is not consulted.
    A first part without [text] yields [undefined]. *)
Theorem extract_summary_first_part E props c cs ct p ps :
  assoc "candidates" props = JArr (JObj c :: cs) ->
  assoc "content" c = JObj ct ->
  assoc "parts" ct = JArr (JObj p :: ps) ->
  extract_summary E (JObj props) = Ok (assoc "text" p).
Proof.
  intros Hc Hct Hp. unfold extract_summary. simpl. rewrite Hc. simpl.
  rewrite Hct. simpl. rewrite Hp. reflexivity.
Qed.

Lemma extract_summary_first_part_witness :
  extract_summary (Analysis.env None (Ok Analysis.well_formed) None)
    (JObj [("candidates",
            JArr [JObj [("content",
                         JObj [("parts",
                                JArr [JObj [("text", JStr "first")];
                                      JObj [("text", JStr "second")]])])];
                  JNull])])
  = Ok (assoc "text" [("text", JStr "first")]).
Proof.
  apply (extract_summary_first_part _ _
           [("content",
             JObj [("parts",
                    JArr [JObj [("text", JStr "first")];
                          JObj [("text", JStr "second")]])])]
           [JNull]
           [("parts",
             JArr [JObj [("text", JStr "first")];
                   JObj [("text", JStr "second")]])]
           [("text", JStr "first")]
           [JObj [("text", JStr "second")]]).
  - reflexivity.
  - reflexivity.
  - reflexivity.
Defined.

(** A response object that stops short of a first part yields the fallback
    summary and no error: [candidates] missing, falsy or empty, a first
    candidate without [content], a [content] without [parts], or an empty
    [parts]. *)
Theorem extract_summary_fallback E props :
  truthy (assoc "candidates" props) = false
  \/ assoc "candidates" props = JArr []
  \/ (exists c cs,
        assoc "candidates" props = JArr (JObj c :: cs)
        /\ (truthy (assoc "content" c) = false
            \/ exists ct,
                 assoc "content" c = JObj ct
                 /\ (truthy (assoc "parts" ct) = false
                     \/ assoc "parts" ct = JArr []))) ->
  extract_summary E (JObj props) = Ok (JStr inconclusive).
Proof.
  unfold extract_summary. simpl.
  intros [Hc | [Hc | (c & cs & Hc & Hrest)]]; rewrite Hc; simpl;
    try reflexivity.
  destruct Hrest as [Hct | (ct & Hct & Hparts)]; rewrite Hct; simpl.
  - reflexivity.
  - destruct Hparts as [Hp | Hp]; rewrite Hp; reflexivity.
Qed.

Lemma extract_summary_fallback_witness :
  extract_summary (Analysis.env None (Ok Analysis.api_error) None)
                  Analysis.api_error
  = Ok (JStr inconclusive).
Proof.
  apply (extract_summary_fallback _
           [("error", JObj [("code", JNum 400);
                            ("status", JStr "INVALID_ARGUMENT")])]).
  left. reflexivity.
Defined.

(** ** A successful analysis, and the same analysis again *)

(** When the request and the update go through and the response yields a
    string, be it the text of the first part or the fallback, the incident
    becomes [analyzed] with that string as summary, the two simulated
    insights, and the time elapsed between the two clock readings; the
    trace grows by the request and the write. *)
Theorem analysis_recorded E payload w id anomalyType d result s :
  get_prop payload "incidentId" = Ok (JStr id) ->
  get_prop payload "anomalyType" = Ok anomalyType ->
  id <> "" ->
  incidents w !! id = Some d ->
  fetch_fault E = None ->
  response_json E = Ok result ->
  extract_summary E result = Ok (JStr s) ->
  update_analyzed_fault E = None ->
  exists d',
    snd (onNewIncident E payload w) = Ok tt
    /\ incidents (fst (onNewIncident E payload w)) = <[id := d']> (incidents w)
    /\ field d' "status" = JStr "analyzed"
    /\ field d' "geminiSummary" = JStr s
    /\ field d' "processingTimeMs" = JNum (end_time E - start_time E)
    /\ field d' "visionInsights" =
       JArr [JStr ("Detailed analysis of " ++ to_string anomalyType
                     ++ " confirmed.")%string;
             JStr "Crowd movement patterns analyzed."]
    /\ trace (fst (onNewIncident E payload w)) =
       trace w ++ [EvHttpPost apiUrl;
                   EvIncidentWrite id (analyzed_fields E anomalyType s)].
Proof.
  intros Hp Ha Hid Hinc Hfetch Hres Hext Hupd.
  assert (Hrun : onNewIncident E payload w =
                 (write_incident (add_events w [EvHttpPost apiUrl]) id
                                 (analyzed_fields E anomalyType s) d, Ok tt)).
  { assert (Hplan : analysis_plan E (JStr id) anomalyType
                    = Ok (id, analyzed_fields E anomalyType s)).
    { unfold analysis_plan. rewrite Hres. cbn [bind_outcome].
      rewrite Hext. cbn [bind_outcome require_substring].
      rewrite (doc_ref_string id Hid). reflexivity. }
    unfold onNewIncident, bind at 1, lift. rewrite Hp.
    unfold bind at 1. rewrite Ha. unfold try_catch.
    rewrite onNewIncident_body_run, Hfetch, Hplan.
    unfold incident_update. simpl. rewrite Hupd, Hinc. reflexivity. }
  rewrite Hrun. exists (merge_fields (analyzed_fields E anomalyType s) d).
  simpl. repeat split; try (rewrite field_merge; reflexivity).
  rewrite <- List.app_assoc. reflexivity.
Qed.

Lemma analysis_recorded_witness :
  exists d',
    let E := Analysis.env None (Ok Analysis.api_error) None in
    snd (onNewIncident E Analysis.payload_I1 Analysis.world) = Ok tt
    /\ incidents (fst (onNewIncident E Analysis.payload_I1 Analysis.world))
       = <["I1" := d']> (incidents Analysis.world)
    /\ field d' "status" = JStr "analyzed"
    /\ field d' "geminiSummary" = JStr inconclusive
    /\ field d' "processingTimeMs" = JNum (end_time E - start_time E)
    /\ field d' "visionInsights" =
       JArr [JStr ("Detailed analysis of " ++ to_string (JStr "crowd_surge")
                     ++ " confirmed.")%string;
             JStr "Crowd movement patterns analyzed."]
    /\ trace (fst (onNewIncident E Analysis.payload_I1 Analysis.world)) =
       trace Analysis.world
       ++ [EvHttpPost apiUrl;
           EvIncidentWrite "I1"
             (analyzed_fields E (JStr "crowd_surge") inconclusive)].
Proof.
  apply (analysis_recorded (Analysis.env None (Ok Analysis.api_error) None)
           Analysis.payload_I1 Analysis.world "I1" (JStr "crowd_surge")
           Scenario.pending_I1 Analysis.api_error inconclusive).
  - reflexivity.
  - reflexivity.
  - discriminate.
  - reflexivity.
  - reflexivity.
  - reflexivity.
  - reflexivity.
  - reflexivity.
Defined.

Lemma merge_fields_idempotent (fields : list (string * jsval)) (d : doc) :
  merge_fields fields (merge_fields fields d) = merge_fields fields d.
Proof.
  unfold merge_fields. apply map_eq. intros k. rewrite !lookup_union.
  destruct ((list_to_map fields : doc) !! k), (d !! k); reflexivity.
Qed.

(** What the [try] block throws does not depend on the world, except that
    a missing document is found missing. *)
Lemma analysis_throws_unique E incidentId anomalyType w w' evs evs' e e' :
  analysis_throws E incidentId anomalyType w evs e ->
  analysis_throws E incidentId anomalyType w' evs' e' ->
  evs = evs' /\ e = e'.
Proof.
  intros H H'. inversion H; inversion H'; subst; split; congruence.
Qed.

Lemma analysis_throws_with_document E id anomalyType w w' evs e d :
  analysis_throws E (JStr id) anomalyType w evs e ->
  incidents w !! id = Some d ->
  analysis_throws E (JStr id) anomalyType w' evs e.
Proof.
  intros H Hinc. inversion H as [ | | | ref fields ? Hplan ? Hnone ]; subst.
  - apply ThrowsFetch; assumption.
  - apply ThrowsPlan; assumption.
  - eapply ThrowsUpdateFault; eassumption.
  - destruct (analysis_plan_ref _ _ _ _ _ Hplan) as [[= <-] _]. congruence.
Qed.

Lemma analysis_throws_not_analyzed E id anomalyType w evs e fields d :
  analysis_throws E (JStr id) anomalyType w evs e ->
  fetch_fault E = None ->
  analysis_plan E (JStr id) anomalyType = Ok (id, fields) ->
  update_analyzed_fault E = None ->
  incidents w !! id = Some d ->
  False.
Proof.
  intros H Hfetch Hplan Hupd Hinc.
  inversion H; subst; congruence.
Qed.

(** The clock enters the plan of an analysis through [processingTimeMs]
    and nowhere else. *)
Lemma analysis_plan_with_clock E start2 end2 incidentId anomalyType :
  match analysis_plan E incidentId anomalyType,
        analysis_plan (with_clock E start2 end2) incidentId anomalyType with
  | Ok (ref, fields), Ok (ref', fields') =>
      ref = ref'
      /\ exists s, fields = analyzed_fields E anomalyType s
                   /\ fields' = analyzed_fields (with_clock E start2 end2)
                                                anomalyType s
  | Throw e, Throw e' => e = e'
  | _, _ => False
  end.
Proof.
  unfold analysis_plan.
  change (response_json (with_clock E start2 end2)) with (response_json E).
  destruct (response_json E) as [result|]; [|reflexivity]. cbn [bind_outcome].
  change (extract_summary (with_clock E start2 end2) result)
    with (extract_summary E result).
  destruct (extract_summary E result) as [summary|]; [|reflexivity].
  cbn [bind_outcome].
  destruct (require_substring summary) as [s|]; [|reflexivity].
  cbn [bind_outcome].
  destruct (doc_ref incidentId); cbn [bind_outcome]; [|reflexivity].
  split; [reflexivity|]. exists s. split; reflexivity.
Qed.

(** What the [try] block throws does not depend on the clock. *)
Lemma analysis_throws_with_clock E start2 end2 incidentId anomalyType w evs e :
  analysis_throws E incidentId anomalyType w evs e <->
  analysis_throws (with_clock E start2 end2) incidentId anomalyType w evs e.
Proof.
  pose proof (analysis_plan_with_clock E start2 end2 incidentId anomalyType)
    as Hplan.
  split; intros H; inversion H as [ ? Hf | ? Hf Hp | ref fields ? Hf Hp Hu
                                  | ref fields Hf Hp Hu Hnone ]; subst.
  - apply ThrowsFetch. exact Hf.
  - rewrite Hp in Hplan.
    destruct (analysis_plan (with_clock E start2 end2) incidentId anomalyType)
      as [[]|e'] eqn:Hp'; [contradiction|]. subst e'.
    apply ThrowsPlan; assumption.
  - rewrite Hp in Hplan.
    destruct (analysis_plan (with_clock E start2 end2) incidentId anomalyType)
      as [[ref' fields']|] eqn:Hp'; [|contradiction].
    eapply ThrowsUpdateFault; [exact Hf | exact Hp' | exact Hu].
  - rewrite Hp in Hplan.
    destruct (analysis_plan (with_clock E start2 end2) incidentId anomalyType)
      as [[ref' fields']|] eqn:Hp'; [|contradiction].
    destruct Hplan as [-> _].
    eapply ThrowsNotFound; [exact Hf | exact Hp' | exact Hu | exact Hnone].
  - apply ThrowsFetch. exact Hf.
  - rewrite Hp in Hplan.
    destruct (analysis_plan E incidentId anomalyType)
      as [[]|e'] eqn:Hp'; [contradiction|]. subst e'.
    apply ThrowsPlan; assumption.
  - rewrite Hp in Hplan.
    destruct (analysis_plan E incidentId anomalyType)
      as [[ref' fields']|] eqn:Hp'; [|contradiction].
    eapply ThrowsUpdateFault; [exact Hf | exact Hp' | exact Hu].
  - rewrite Hp in Hplan.
    destruct (analysis_plan E incidentId anomalyType)
      as [[ref' fields']|] eqn:Hp'; [|contradiction].
    destruct Hplan as [<- _].
    eapply ThrowsNotFound; [exact Hf | exact Hp' | exact Hu | exact Hnone].
Qed.

(** Written over an analysed incident, the fields of the same analysis
    under another clock change the time fields only. *)
Lemma analyzed_again E E' anomalyType s (d : doc) k :
  ~ In k analysis_time_names ->
  field (merge_fields (analyzed_fields E' anomalyType s)
           (merge_fields (analyzed_fields E anomalyType s) d)) k
  = field (merge_fields (analyzed_fields E anomalyType s) d) k.
Proof.
  intros Hk. rewrite !field_merge. unfold analyzed_fields.
  cbn [assoc_opt].
  repeat match goal with
         | |- context [String.eqb ?x k] =>
             destruct (String.eqb_spec x k) as [<-|?]
         end; try reflexivity;
    exfalso; apply Hk; simpl; tauto.
Qed.

(** Run again on what the first run left, with the same payload (naming
    its incident by a document id, without [/]), the same response and the
    same faults, whatever the two clocks read this time, the analysis
    leaves every incident in place and every field of every incident as
    the first run left it, except [processingTimeMs] and [analyzedAt],
    which each write sets anew. *)
Theorem analysis_twice E payload w start2 end2 id d1 :
  payload_id_plain payload = true ->
  incidents (fst (onNewIncident E payload w)) !! id = Some d1 ->
  exists d2,
    incidents (fst (onNewIncident (with_clock E start2 end2) payload
                      (fst (onNewIncident E payload w)))) !! id = Some d2
    /\ forall k, ~ In k analysis_time_names -> field d2 k = field d1 k.
Proof.
  pose proof (onNewIncident_path E payload w) as H1. unfold ends_in in H1.
  destruct (onNewIncident E payload w) as [w1 r1]. simpl in H1 |- *.
  set (E2 := with_clock E start2 end2).
  pose proof (onNewIncident_path E2 payload w1) as H2. unfold ends_in in H2.
  destruct (onNewIncident E2 payload w1) as [w2 r2]. simpl in H2 |- *.
  intros _ Hd1.
  inversion H2 as [ | id2 a2 fields2 d2 Hp2 Ha2 Hid2 Hfetch2 Hplan2 Hupd2 Hinc2
                    | id2 a2 evs2 e2 d2 Hp2 Ha2 Hid2 Hthrows2 Hf2 Hinc2
                    | ]; subst; try (exists d1; split; [assumption | reflexivity]).
  - (* the second run ends [analyzed] *)
    simpl. destruct (String.eqb_spec id id2) as [->|Hne].
    2:{ exists d1. rewrite lookup_insert_ne by congruence.
        split; [assumption | reflexivity]. }
    rewrite lookup_insert_eq. eexists. split; [reflexivity|].
    assert (d2 = d1) as -> by congruence.
    inversion H1 as [ | id1 a1 fields1 d Hp1 Ha1 Hid1 Hfetch1 Hplan1 Hupd1 Hinc1
                      | id1 a1 evs1 e1 d Hp1 Ha1 Hid1 Hthrows1 Hf1 Hinc1
                      | i1 a1 evs1 e1 e1' Hp1 Ha1 Hthrows1 Hrej ]; subst;
      try congruence.
    + assert (id1 = id2) as -> by congruence.
      assert (a1 = a2) as -> by congruence.
      pose proof (analysis_plan_with_clock E start2 end2 (JStr id2) a2) as Hplan.
      fold E2 in Hplan. rewrite Hplan1, Hplan2 in Hplan.
      destruct Hplan as (_ & s & -> & ->).
      simpl in Hd1. rewrite lookup_insert_eq in Hd1. injection Hd1 as <-.
      intros k Hk. apply analyzed_again. exact Hk.
    + exfalso. assert (id1 = id2) as -> by congruence.
      assert (a1 = a2) as -> by congruence.
      apply (analysis_throws_with_clock E start2 end2) in Hthrows1.
      exact (analysis_throws_not_analyzed _ _ _ _ _ _ _ _
               Hthrows1 Hfetch2 Hplan2 Hupd2 Hinc1).
    + exfalso. assert (i1 = JStr id2) as -> by congruence.
      assert (a1 = a2) as -> by congruence.
      apply (analysis_throws_with_clock E start2 end2) in Hthrows1.
      exact (analysis_throws_not_analyzed _ _ _ _ _ _ _ _
               Hthrows1 Hfetch2 Hplan2 Hupd2 Hinc2).
  - (* the second run ends [analysis_failed] *)
    simpl. destruct (String.eqb_spec id id2) as [->|Hne].
    2:{ exists d1. rewrite lookup_insert_ne by congruence.
        split; [assumption | reflexivity]. }
    rewrite lookup_insert_eq. eexists. split; [reflexivity|].
    assert (d2 = d1) as -> by (simpl in Hinc2; congruence).
    inversion H1 as [ | id1 a1 fields1 d Hp1 Ha1 Hid1 Hfetch1 Hplan1 Hupd1 Hinc1
                      | id1 a1 evs1 e1 d Hp1 Ha1 Hid1 Hthrows1 Hf1 Hinc1
                      | i1 a1 evs1 e1 e1' Hp1 Ha1 Hthrows1 Hrej ]; subst;
      try congruence.
    + exfalso. assert (id1 = id2) as -> by congruence.
      assert (a1 = a2) as -> by congruence.
      apply (analysis_throws_with_clock E start2 end2) in Hthrows2.
      exact (analysis_throws_not_analyzed _ _ _ _ _ _ _ _
               Hthrows2 Hfetch1 Hplan1 Hupd1 Hinc2).
    + assert (id1 = id2) as -> by congruence.
      assert (a1 = a2) as -> by congruence.
      apply (analysis_throws_with_clock E start2 end2) in Hthrows1.
      destruct (analysis_throws_unique _ _ _ _ _ _ _ _ _ Hthrows1 Hthrows2)
        as [_ ->].
      simpl in Hd1. rewrite lookup_insert_eq in Hd1. injection Hd1 as <-.
      intros k _. rewrite merge_fields_idempotent. reflexivity.
    + exfalso. assert (i1 = JStr id2) as -> by congruence.
      simpl in Hinc2.
      destruct Hrej as [[e0 Href] | (id & Href & [Hf | Hnone])].
      * rewrite (doc_ref_string id2 Hid2) in Href. discriminate.
      * unfold E2 in Hf2. simpl in Hf2. congruence.
      * rewrite (doc_ref_string id2 Hid2) in Href. injection Href as <-.
        congruence.
Qed.

(** The expected response, analysed at one time and again later: the
    incident is still there, [analyzed] with the same summary. *)
Lemma analysis_twice_witness :
  exists d2,
    incidents
      (fst (onNewIncident
              (with_clock (Analysis.env None (Ok Analysis.well_formed) None)
                          5000 9000)
              Analysis.payload_I1
              (fst (onNewIncident
                      (Analysis.env None (Ok Analysis.well_formed) None)
                      Analysis.payload_I1 Analysis.world))))
    !! "I1" = Some d2
    /\ forall k,
         ~ In k analysis_time_names ->
         field d2 k
         = field (merge_fields
                    (analyzed_fields
                       (Analysis.env None (Ok Analysis.well_formed) None)
                       (JStr "crowd_surge") "Crowd is dense.")
                    Scenario.pending_I1) k.
Proof.
  apply (analysis_twice (Analysis.env None (Ok Analysis.well_formed) None)
           Analysis.payload_I1 Analysis.world 5000 9000 "I1").
  - reflexivity.
  - reflexivity.
Defined.

(** The same two runs: the second one has replaced the measured time. *)
Example analysis_twice_changes_the_time :
  let E := Analysis.env None (Ok Analysis.well_formed) None in
  let w1 := fst (onNewIncident E Analysis.payload_I1 Analysis.world) in
  let w2 := fst (onNewIncident (with_clock E 5000 9000)
                   Analysis.payload_I1 w1) in
  field (default ∅ (incidents w1 !! "I1")) "processingTimeMs" = JNum 2250
  /\ field (default ∅ (incidents w2 !! "I1")) "processingTimeMs" = JNum 4000
  /\ field (default ∅ (incidents w2 !! "I1")) "geminiSummary"
     = JStr "Crowd is dense.".
Proof. repeat split; reflexivity. Qed.

(** * Properties of the dashboard helpers *)

(** ** [formatTimeAgo] *)

(** The label is decided by the age in milliseconds alone, with thresholds
    at one minute, one hour and one day, and the number shown is the age in
    whole units, rounded down: the two nested roundings of the source never
    round an age up.  A timestamp in the future reads [Just now]. *)
Theorem formatTimeAgo_thresholds (now timestamp : Z) :
  let age := now - timestamp in
  (age < 60000
   /\ AlertPanel.formatTimeAgo now timestamp = "Just now")
  \/ (60000 <= age < 3600000
      /\ AlertPanel.formatTimeAgo now timestamp
         = pretty (age / 60000) +:+ "m ago")
  \/ (3600000 <= age < 86400000
      /\ AlertPanel.formatTimeAgo now timestamp
         = pretty (age / 3600000) +:+ "h ago")
  \/ (86400000 <= age
      /\ AlertPanel.formatTimeAgo now timestamp
         = pretty (age / 86400000) +:+ "d ago").
Proof.
  intros age. unfold AlertPanel.formatTimeAgo. fold age.
  change (1000 * 60) with 60000.
  assert (Hh : age / 60000 / 60 = age / 3600000)
    by (rewrite Z.div_div by lia; reflexivity).
  assert (Hd : age / 60000 / 60 / 24 = age / 86400000)
    by (rewrite !Z.div_div by lia; reflexivity).
  destruct (Z.ltb_spec (age / 60000) 1) as [H1 | H1].
  { left. split; [|reflexivity]. Z.div_mod_to_equations. lia. }
  destruct (Z.ltb_spec (age / 60000) 60) as [H2 | H2].
  { right. left. split; [|reflexivity]. Z.div_mod_to_equations. lia. }
  destruct (Z.ltb_spec (age / 60000 / 60) 24) as [H3 | H3].
  { right. right. left. rewrite Hh in *. split; [|reflexivity].
    Z.div_mod_to_equations. lia. }
  right. right. right. rewrite Hd. rewrite Hh in *. split; [|reflexivity].
  Z.div_mod_to_equations. lia.
Qed.

Ltac no_such_label H s :=
  repeat (destruct s as [|? s]; simpl in H;
          try discriminate H; injection H as _ H).

Lemma minutes_label_distinct (s : string) : s +:+ "m ago" <> "Just now".
Proof. intros H. no_such_label H s. Qed.

Lemma hours_label_distinct (s : string) : s +:+ "h ago" <> "Just now".
Proof. intros H. no_such_label H s. Qed.

Lemma days_label_distinct (s : string) : s +:+ "d ago" <> "Just now".
Proof. intros H. no_such_label H s. Qed.

(** An alert reads [Just now] exactly while it is less than a minute old,
    which includes every alert stamped later than the clock. *)
Theorem formatTimeAgo_just_now (now timestamp : Z) :
  AlertPanel.formatTimeAgo now timestamp = "Just now"
  <-> now - timestamp < 60000.
Proof.
  unfold AlertPanel.formatTimeAgo. change (1000 * 60) with 60000.
  destruct (Z.ltb_spec ((now - timestamp) / 60000) 1) as [H1 | H1].
  { split; [|reflexivity]. intros _. Z.div_mod_to_equations. lia. }
  split.
  - destruct ((now - timestamp) / 60000 <? 60);
      [intros H; exact (False_ind _ (minutes_label_distinct _ H))|].
    destruct ((now - timestamp) / 60000 / 60 <? 24); intros H.
    + exact (False_ind _ (hours_label_distinct _ H)).
    + exact (False_ind _ (days_label_distinct _ H)).
  - intros Hlt. exfalso. Z.div_mod_to_equations. lia.
Qed.

(** ** The simulated playback of [VideoPlayer] *)

Lemma ticks_stay (n : nat) (duration t : Z) :
  duration <= t -> VideoPlayer.ticks n duration t = t.
Proof.
  intros Hle. induction n as [|n IH]; simpl; [reflexivity|].
  unfold VideoPlayer.tick. destruct (Z.leb_spec duration t); [|lia].
  simpl. exact IH.
Qed.

(** The position never passes the duration.  From a position within the
    duration, [n] runs of the updater lead to [t + n] capped at the
    duration, however many intervals are running; and a run stops playback
    exactly when it finds the position at or past the duration. *)
Theorem playback_stops_at_duration (n : nat) (duration t : Z) :
  t <= duration ->
  VideoPlayer.ticks n duration t = Z.min (t + Z.of_nat n) duration
  /\ (snd (VideoPlayer.tick duration t) = true <-> t = duration).
Proof.
  intros Hle. split.
  - revert t Hle. induction n as [|n IH]; intros t Hle.
    + simpl. lia.
    + cbn [VideoPlayer.ticks]. unfold VideoPlayer.tick.
      destruct (Z.leb_spec duration t) as [Hge | Hlt]; simpl.
      * rewrite ticks_stay by lia. lia.
      * rewrite IH by lia. lia.
  - unfold VideoPlayer.tick.
    destruct (Z.leb_spec duration t); simpl; split; intros; try lia;
      discriminate.
Qed.

Lemma playback_stops_at_duration_witness :
  VideoPlayer.ticks 200 165 0 = Z.min (0 + Z.of_nat 200) 165
  /\ (snd (VideoPlayer.tick 165 0) = true <-> 0 = 165).
Proof.
  apply (playback_stops_at_duration 200 165 0). lia.
Defined.

Lemma two_digits (k : nat) :
  (k < 60)%nat ->
  String.length (VideoPlayer.padStart2 (pretty (Z.of_nat k))) = 2%nat.
Proof.
  intros Hk. do 60 (destruct k as [|k]; [reflexivity|]). lia.
Qed.

(** For a position of [seconds >= 0], [formatTime] shows the whole minutes,
    a colon and the remaining seconds on exactly two characters; minutes and
    seconds add up to the position and the seconds stay below sixty. *)
Theorem formatTime_minutes_seconds (seconds : Z) :
  0 <= seconds ->
  exists mins secs,
    seconds = 60 * mins + secs
    /\ 0 <= mins
    /\ 0 <= secs < 60
    /\ VideoPlayer.formatTime seconds
       = pretty mins +:+ ":" +:+ VideoPlayer.padStart2 (pretty secs)
    /\ String.length (VideoPlayer.padStart2 (pretty secs)) = 2%nat.
Proof.
  intros Hs. exists (seconds / 60), (Z.rem seconds 60).
  assert (Hrem : Z.rem seconds 60 = seconds mod 60)
    by (apply Z.rem_mod_nonneg; lia).
  rewrite Hrem.
  assert (Hbound : 0 <= seconds mod 60 < 60) by (apply Z.mod_pos_bound; lia).
  repeat split; try lia.
  - apply Z.div_mod. lia.
  - apply Z.div_pos; lia.
  - unfold VideoPlayer.formatTime. rewrite Hrem. reflexivity.
  - rewrite <- (Z2Nat.id (seconds mod 60)) by lia.
    apply two_digits. lia.
Qed.

Lemma formatTime_minutes_seconds_witness :
  exists mins secs,
    165 = 60 * mins + secs
    /\ 0 <= mins
    /\ 0 <= secs < 60
    /\ VideoPlayer.formatTime 165
       = pretty mins +:+ ":" +:+ VideoPlayer.padStart2 (pretty secs)
    /\ String.length (VideoPlayer.padStart2 (pretty secs)) = 2%nat.
Proof.
  apply (formatTime_minutes_seconds 165). lia.
Defined.

(** The duration of the recording, as the source annotates it. *)
Example formatTime_of_duration : VideoPlayer.formatTime 165 = "2:45".
Proof. reflexivity. Qed.

(** ** Acknowledging an alert in the cache *)

Lemma lookup_map {A B} (f : A -> B) (l : list A) (i : nat) (x : A) :
  l !! i = Some x -> List.map f l !! i = Some (f x).
Proof.
  revert i. induction l as [|a l IH]; intros [|i]; simpl; try discriminate.
  - intros [= ->]. reflexivity.
  - apply IH.
Qed.

(** Acknowledging an alert adds, removes and reorders nothing, and copies
    every other field of the dashboard: the four counters, the system
    status and the time of the last update.  The alert at each position is
    untouched, earlier acknowledgement included, when its id is another
    one; when its id is the acknowledged one, it keeps each of its twelve
    other fields and its [acknowledged] is now [true]. *)
Theorem acknowledge_touches_matching_alerts (number date : Type)
    (alertId : string) (o : DataStore.DashboardData number date) (i : nat)
    (alert : DataStore.Alert number date) :
  DataStore.recent_alerts _ _ o !! i = Some alert ->
  exists o' alert',
    DataStore.acknowledge _ _ alertId (Some o) = Some o'
    /\ DataStore.active_incidents _ _ o' = DataStore.active_incidents _ _ o
    /\ DataStore.todays_incidents _ _ o' = DataStore.todays_incidents _ _ o
    /\ DataStore.available_units _ _ o' = DataStore.available_units _ _ o
    /\ DataStore.total_units _ _ o' = DataStore.total_units _ _ o
    /\ DataStore.system_status _ _ o' = DataStore.system_status _ _ o
    /\ DataStore.last_updated _ _ o' = DataStore.last_updated _ _ o
    /\ List.length (DataStore.recent_alerts _ _ o')
       = List.length (DataStore.recent_alerts _ _ o)
    /\ DataStore.recent_alerts _ _ o' !! i = Some alert'
    /\ (DataStore.id _ _ alert <> alertId -> alert' = alert)
    /\ (DataStore.id _ _ alert = alertId ->
        alert' = DataStore.mkAlert _ _
                   (DataStore.id _ _ alert)
                   (DataStore.incident_id _ _ alert)
                   (DataStore.alert_type _ _ alert)
                   (DataStore.title _ _ alert)
                   (DataStore.message _ _ alert)
                   (DataStore.severity _ _ alert)
                   (DataStore.confidence _ _ alert)
                   (DataStore.description _ _ alert)
                   (DataStore.requires_response _ _ alert)
                   (DataStore.timestamp _ _ alert)
                   (DataStore.status _ _ alert)
                   (DataStore.location _ _ alert)
                   (Some true)).
Proof.
  intros Hi. eexists.
  exists (if String.eqb (DataStore.id _ _ alert) alertId
          then DataStore.with_acknowledged _ _ alert
          else alert).
  split; [reflexivity|]. simpl.
  repeat split; try reflexivity.
  - apply List.length_map.
  - exact (lookup_map _ _ _ _ Hi).
  - intros Hne. destruct (String.eqb_spec (DataStore.id _ _ alert) alertId);
      [contradiction | reflexivity].
  - intros Heq. destruct (String.eqb_spec (DataStore.id _ _ alert) alertId);
      [reflexivity | contradiction].
Qed.

(** Two alerts in the cache, the second one acknowledged. *)
Lemma acknowledge_touches_matching_alerts_witness :
  let seen := DataStore.mkAlert Z Z "a1" None None None None
                DataStore.high None None None (inl 0) None None
                (Some true) in
  let fresh := DataStore.mkAlert Z Z "a2" (Some "I2") None (Some "Smoke")
                 None DataStore.critical (Some 87) None (Some true) (inr "t")
                 (Some DataStore.active) None None in
  let o := DataStore.mkDashboardData Z Z 1 4 2 3 [seen; fresh] "ok" "now" in
  exists o' alert',
    DataStore.acknowledge _ _ "a2" (Some o) = Some o'
    /\ DataStore.active_incidents _ _ o' = DataStore.active_incidents _ _ o
    /\ DataStore.todays_incidents _ _ o' = DataStore.todays_incidents _ _ o
    /\ DataStore.available_units _ _ o' = DataStore.available_units _ _ o
    /\ DataStore.total_units _ _ o' = DataStore.total_units _ _ o
    /\ DataStore.system_status _ _ o' = DataStore.system_status _ _ o
    /\ DataStore.last_updated _ _ o' = DataStore.last_updated _ _ o
    /\ List.length (DataStore.recent_alerts _ _ o')
       = List.length (DataStore.recent_alerts _ _ o)
    /\ DataStore.recent_alerts _ _ o' !! 1%nat = Some alert'
    /\ (DataStore.id _ _ fresh <> "a2" -> alert' = fresh)
    /\ (DataStore.id _ _ fresh = "a2" ->
        alert' = DataStore.mkAlert _ _
                   (DataStore.id _ _ fresh)
                   (DataStore.incident_id _ _ fresh)
                   (DataStore.alert_type _ _ fresh)
                   (DataStore.title _ _ fresh)
                   (DataStore.message _ _ fresh)
                   (DataStore.severity _ _ fresh)
                   (DataStore.confidence _ _ fresh)
                   (DataStore.description _ _ fresh)
                   (DataStore.requires_response _ _ fresh)
                   (DataStore.timestamp _ _ fresh)
                   (DataStore.status _ _ fresh)
                   (DataStore.location _ _ fresh)
                   (Some true)).
Proof.
  intros seen fresh o.
  apply (acknowledge_touches_matching_alerts Z Z "a2" o 1%nat fresh).
  reflexivity.
Defined.

(** Acknowledging the same alert twice is the same as once, and two
    acknowledgements can be applied in either order; an empty cache stays
    empty. *)
Theorem acknowledge_idempotent_commutative (number date : Type)
    (a b : string) (old : option (DataStore.DashboardData number date)) :
  DataStore.acknowledge _ _ a (DataStore.acknowledge _ _ a old)
  = DataStore.acknowledge _ _ a old
  /\ DataStore.acknowledge _ _ a (DataStore.acknowledge _ _ b old)
     = DataStore.acknowledge _ _ b (DataStore.acknowledge _ _ a old)
  /\ DataStore.acknowledge number date a None = None.
Proof.
  destruct old as [o|]; simpl; [|repeat split; reflexivity].
  repeat split; f_equal; f_equal; rewrite !List.map_map;
    apply List.map_ext; intros alert; simpl;
    destruct (String.eqb (DataStore.id _ _ alert) a) eqn:Ha;
    destruct (String.eqb (DataStore.id _ _ alert) b) eqn:Hb;
    simpl; rewrite ?Ha, ?Hb; reflexivity.
Qed.
